(** * pdfreactor-utils: renderToc, renderPdf and renderOffscreen

    A shallow embedding of [src/index.js].  The three exported functions
    work on the host's live document; the embedding makes that document an
    explicit state and follows the statements of the source one by one.

    - [JsString]: ECMAScript strings as sequences of UTF-16 code units,
      with the string built-ins the source calls ([trim], [toLowerCase],
      [replace( /\W+/g, '-' )], number-to-string conversion).
    - [Html]: elements as the source reads and writes them (node name,
      attributes, [textContent], [innerHTML]) and selector resolution.
    - [Toc], [Pdf]: [renderToc] and [renderPdf] on the markup they assign.
    - [Fragment], [PdfPages]: the children of the parent of [renderPdf],
      which the host makes of the markup and reads back for every further
      page, and [renderPdf] on them.
    - [Dom], [Offscreen]: the tree mutations of the host ([removeChild],
      [insertBefore]) with their failures, and [renderOffscreen].
    - [Fixtures]: the documents of [test/test.js] and variations of them.

    The properties follow, one module of lemmas per part and one module of
    claims per function. *)

From Stdlib Require Import ZArith NArith Ascii String DecimalString Lia.
From Equations Require Import Equations.
From stdpp Require Import base option list sorting gmap strings.

(** ** Completions

    A JavaScript call either returns a value or throws.  The values that
    occur are [undefined] and integral numbers: page counts, indices and
    what a task returns. *)

Inductive value : Type :=
| Undefined
| Number (n : Z).

Inductive exn : Type :=
| TypeError
| NotFoundError
| HierarchyRequestError
| Thrown (v : value).

Inductive completion (A : Type) : Type :=
| Normal (a : A)
| Throw (e : exn).
Arguments Normal {A} a.
Arguments Throw {A} e.

#[global] Instance value_eq_dec : EqDecision value.
Proof. solve_decision. Defined.
#[global] Instance exn_eq_dec : EqDecision exn.
Proof. solve_decision. Defined.

(** ** Strings *)

Module JsString.

Local Open Scope N_scope.

(** A string is its sequence of 16-bit code units. *)
Abbreviation jsstring := (list N).

(** A literal of the source, written with ASCII characters. *)
Fixpoint lit (s : string) : jsstring :=
  match s with
  | EmptyString => []
  | String c s' => N_of_ascii c :: lit s'
  end.

Definition quot : jsstring := [34].
Definition newline : jsstring := [10].
Definition hyphen : N := 45.

Definition between (lo hi c : N) : bool := (lo <=? c) && (c <=? hi).

(** WhiteSpace and LineTerminator code points of ECMAScript, the ones
    [String.prototype.trim] strips: TAB, LF, VT, FF, CR, SP, NBSP, the
    other space separators, LS, PS and the byte order mark. *)
Definition isWhiteSpace (c : N) : bool :=
  between 9 13 c || (c =? 32) || (c =? 160) || (c =? 5760)
  || between 8192 8202 c || (c =? 8232) || (c =? 8233) || (c =? 8239)
  || (c =? 8287) || (c =? 12288) || (c =? 65279).

(** The class [\w] of a regular expression without flags: [A-Za-z0-9_]. *)
Definition isWordChar (c : N) : bool :=
  between 48 57 c || between 65 90 c || (c =? 95) || between 97 122 c.

Fixpoint trimStart (s : jsstring) : jsstring :=
  match s with
  | [] => []
  | c :: s' => if isWhiteSpace c then trimStart s' else s
  end.

Definition trimEnd (s : jsstring) : jsstring := rev (trimStart (rev s)).

Definition trim (s : jsstring) : jsstring := trimEnd (trimStart s).

(** [toLowerCase] on the letters A to Z; other code units are kept.  Node
    names of HTML elements are ASCII-uppercased qualified names. *)
Definition lowerChar (c : N) : N := if between 65 90 c then c + 32 else c.
Definition toLowerCase (s : jsstring) : jsstring := map lowerChar s.

(** The longest prefix matched by [\W+] is skipped by [skipNonWord]. *)
Fixpoint skipNonWord (s : jsstring) : jsstring :=
  match s with
  | [] => []
  | c :: s' => if isWordChar c then s else skipNonWord s'
  end.

(** [s.replace( /\W+/g, '-' )]: scan from the left; where [\W+] matches,
    it matches greedily, the match is replaced by one hyphen and the scan
    goes on behind it; other code units are copied. *)
Equations? replaceNonWord (s : jsstring) : jsstring by wf (length s) lt :=
  replaceNonWord [] := [];
  replaceNonWord (c :: s') with isWordChar c := {
    | true := c :: replaceNonWord s';
    | false := hyphen :: replaceNonWord (skipNonWord s') }.
Proof.
  - simpl; lia.
  - assert (Hskip : forall t, (length (skipNonWord t) <= length t)%nat).
    { induction t as [|a t IH]; simpl; [lia|].
      destruct (isWordChar a); simpl; lia. }
    specialize (Hskip s'). simpl. lia.
Qed.

(** What "every maximal run of non-word characters becomes one hyphen"
    means, said without a scan: cut the string into its maximal blocks of
    code units of one class, and write a hyphen for each non-word block. *)
Fixpoint blocks (s : jsstring) : list (bool * jsstring) :=
  match s with
  | [] => []
  | c :: s' =>
      match blocks s' with
      | (w, r) :: bs =>
          if Bool.eqb w (isWordChar c) then (w, c :: r) :: bs
          else (isWordChar c, [c]) :: (w, r) :: bs
      | [] => [(isWordChar c, [c])]
      end
  end.

Definition renderBlock (b : bool * jsstring) : jsstring :=
  if b.1 then b.2 else [hyphen].

Definition hyphenateRuns (s : jsstring) : jsstring :=
  concat (map renderBlock (blocks s)).

(** ToString of an integral Number. *)
Definition numberToString (n : Z) : jsstring :=
  lit (NilZero.string_of_int (Z.to_int n)).

(** ToBoolean of a string: only the empty string is falsy. *)
Definition truthy (s : jsstring) : bool :=
  match s with [] => false | _ => true end.

End JsString.

(** ** Elements and selectors *)

Module Html.
Import JsString.

(** An element as the source sees it.  [textContent] and [innerHTML] are
    the values the host computes from the subtree; [attributes] holds the
    content attributes, among them [id] and [data-toc-ignore].

    Markup is kept as the string itself: an assignment to [innerHTML]
    stores the string and a read gives it back.  Parsing the string into
    child elements and serialising them again is the work of the host and
    is not modelled here, so statements about generated elements are
    statements about their markup.  Where a function reads [innerHTML]
    again after it has assigned it, as [renderPdf] does from the second
    page on, the read gives what the host made of the markup: for that,
    see [Fragment] and [PdfPages]. *)
Record element : Type := Element {
  nodeName : jsstring;
  attributes : gmap string jsstring;
  textContent : jsstring;
  innerHTML : jsstring }.

#[global] Instance element_inhabited : Inhabited element :=
  populate (Element [] ∅ [] []).

(** The elements of the document in document order.  An element object is
    referred to by its position; writing a property replaces the element
    at that position, so every holder of the reference sees the write. *)
Abbreviation document := (list element).

(** [e.getAttribute( name )]: [None] stands for [null]. *)
Definition getAttribute (e : element) (name : string) : option jsstring :=
  attributes e !! name.

(** The [id] property reflects the content attribute: the empty string
    when the attribute is absent. *)
Definition get_id (e : element) : jsstring := default [] (attributes e !! "id"%string).

Definition set_id (v : jsstring) (e : element) : element :=
  Element (nodeName e) (<["id"%string := v]> (attributes e)) (textContent e) (innerHTML e).

Definition set_innerHTML (v : jsstring) (e : element) : element :=
  Element (nodeName e) (attributes e) (textContent e) v.

(** Selector lists of type and id selectors, such as [h1, h2] and [#toc]. *)
Inductive simple_selector : Type :=
| TypeSelector (name : jsstring)
| IdSelector (id : jsstring).

Abbreviation selector := (list simple_selector).

Definition matches_simple (s : simple_selector) (e : element) : bool :=
  match s with
  | TypeSelector name => bool_decide (toLowerCase (nodeName e) = toLowerCase name)
  | IdSelector i => bool_decide (attributes e !! "id"%string = Some i)
  end.

Definition matches (sel : selector) (e : element) : bool :=
  existsb (fun s => matches_simple s e) sel.

Fixpoint matching_from (sel : selector) (i : nat) (d : document) : list nat :=
  match d with
  | [] => []
  | e :: d' =>
      if matches sel e then i :: matching_from sel (S i) d'
      else matching_from sel (S i) d'
  end.

(** [document.querySelectorAll( sel )], in document order. *)
Definition querySelectorAll (d : document) (sel : selector) : list nat :=
  matching_from sel 0 d.

(** [document.querySelector( sel )]: the first match, or [null]. *)
Definition querySelector (d : document) (sel : selector) : option nat :=
  head (querySelectorAll d sel).

(** [Array.prototype.reduce] with the index passed to the callback. *)
Fixpoint reduce_from {A B} (f : B -> A -> nat -> B) (l : list A) (index : nat) (acc : B) : B :=
  match l with
  | [] => acc
  | x :: l' => reduce_from f l' (S index) (f acc x index)
  end.

Definition reduce {A B} (f : B -> A -> nat -> B) (l : list A) (init : B) : B :=
  reduce_from f l 0 init.

End Html.

(** ** renderToc *)

Module Toc.
Import JsString Html.

Definition indent12 : jsstring := lit "            ".
Definition indent15 : jsstring := lit "               ".

(** The template literal of the reduce callback. *)
Definition template (tocListContent : jsstring) (heading : element) : jsstring :=
  tocListContent ++ newline
    ++ indent12 ++ lit "<li class=" ++ quot ++ lit "level-"
    ++ toLowerCase (nodeName heading) ++ quot ++ lit ">" ++ newline
    ++ indent15 ++ lit "<a href=" ++ quot ++ lit "#" ++ get_id heading ++ quot
    ++ lit ">" ++ innerHTML heading ++ lit "</a>" ++ newline
    ++ indent12 ++ lit "</li>".

(** The right-hand side of the assignment to [heading.id]. *)
Definition idFor (heading : element) (index : nat) : jsstring :=
  if truthy (get_id heading) then get_id heading
  else replaceNonWord (trim (textContent heading)) ++ numberToString (Z.of_nat index).

(** The reduce callback: assigns [heading.id], then extends the markup.
    The accumulator is paired with the document the callback mutates. *)
Definition tocCallback (acc : document * jsstring) (heading : nat) (index : nat)
  : document * jsstring :=
  let '(d, tocListContent) := acc in
  let d' := <[heading := set_id (idFor (d !!! heading) index) (d !!! heading)]> d in
  (d', template tocListContent (d' !!! heading)).

(** The headings that pass [.filter( ... )]: a [getAttribute] that
    returns [null], loosely compared with [null]. *)
Definition headingRefs (d : document) (headingSelector : selector) : list nat :=
  filter (λ h, getAttribute (d !!! h) "data-toc-ignore" = None)
    (querySelectorAll d headingSelector).

Definition renderToc (targetElementSelector headingSelector : selector) (d : document)
  : completion value * document :=
  let headings := querySelectorAll d headingSelector in
  match querySelector d targetElementSelector with
  | None => (Throw TypeError, d)
  | Some tocList =>
      let '(d', content) :=
        reduce tocCallback
          (filter (λ h, getAttribute (d !!! h) "data-toc-ignore" = None) headings)
          (d, innerHTML (d !!! tocList)) in
      (Normal Undefined, <[tocList := set_innerHTML content (d' !!! tocList)]> d')
  end.

(** The default value of the parameter [headingSelector]: ['h1, h2']. *)
Definition headingSelector_default : selector :=
  [TypeSelector (lit "h1"); TypeSelector (lit "h2")].

(** The markup of a table-of-contents entry, named by its parts: a list
    item of a class, holding one link to a fragment. *)
Definition link (fragment inner : jsstring) : jsstring :=
  lit "<a href=" ++ quot ++ lit "#" ++ fragment ++ quot ++ lit ">"
    ++ inner ++ lit "</a>".

Definition listItem (class body : jsstring) : jsstring :=
  newline ++ indent12 ++ lit "<li class=" ++ quot ++ class ++ quot ++ lit ">"
    ++ newline ++ indent15 ++ body
    ++ newline ++ indent12 ++ lit "</li>".

(** The entry of a heading that is processed with index [index]. *)
Definition entry (heading : element) (index : nat) : jsstring :=
  listItem (lit "level-" ++ toLowerCase (nodeName heading))
    (link (idFor heading index) (innerHTML heading)).

End Toc.

(** ** renderPdf

    On the markup: what the first assignment of a call reads is the
    content as it was, and what it assigns is that content with the markup
    of page 1 appended.  For the further pages a read gives back here the
    string that was assigned, where the host gives its serialisation of
    the children; [PdfPages] follows the host there. *)

Module Pdf.
Import JsString Html.

(** [template( page )], with [src] of the enclosing call. *)
Definition template (src : jsstring) (page : Z) : jsstring :=
  lit "<img src=" ++ quot ++ src ++ quot
    ++ lit " style=" ++ quot ++ lit "-ro-source-page: " ++ numberToString page ++ quot
    ++ lit " class=" ++ quot ++ lit "embedded-pdf page-" ++ numberToString page ++ quot
    ++ lit " />".


(** [parent.innerHTML += markup]. *)
Definition appendInnerHTML (parent : nat) (markup : jsstring) (d : document) : document :=
  <[parent := set_innerHTML (innerHTML (d !!! parent) ++ markup) (d !!! parent)]> d.

(** [page <= numberOfPages]: a comparison with [undefined] is false. *)
Definition lessEq (page : Z) (numberOfPages : value) : bool :=
  match numberOfPages with
  | Number n => (page <=? n)%Z
  | Undefined => false
  end.

Definition upper (numberOfPages : value) : Z :=
  match numberOfPages with
  | Number n => n
  | Undefined => 0%Z
  end.

Definition inspect {A} (a : A) : { b : A | a = b } := exist _ a eq_refl.

(** The loop [for( let page = ...; page <= numberOfPages; ++page )]. *)
Equations? for_pages (src : jsstring) (parent : nat) (numberOfPages : value)
    (page : Z) (d : document) : document
  by wf (Z.to_nat (upper numberOfPages + 1 - page)) lt :=
  for_pages src parent numberOfPages page d with inspect (lessEq page numberOfPages) := {
    | exist _ true _ =>
        for_pages src parent numberOfPages (page + 1)
          (appendInnerHTML parent (template src page) d);
    | exist _ false _ => d }.
Proof.
  destruct numberOfPages as [|n]; simpl in *; [discriminate|].
  apply Z.leb_le in e. lia.
Qed.

Section Engine.

(** The rendering engine: [roPageCount d parent] is what
    [parent.lastChild.roPageCount] evaluates to in the document [d];
    [Undefined] where the engine does not provide the property. *)
Variable roPageCount : document -> nat -> value.

Definition renderPdf (parentSelector : selector) (src : jsstring) (d : document)
  : completion value * document :=
  match querySelector d parentSelector with
  | None => (Throw TypeError, d)
  | Some parent =>
      let d1 := appendInnerHTML parent (template src 1) d in
      let numberOfPages := roPageCount d1 parent in
      (Normal Undefined, for_pages src parent numberOfPages 2 d1)
  end.

End Engine.

End Pdf.

(** ** The children of the parent

    [parent.innerHTML += markup] reads [parent.innerHTML], which is the
    host's serialisation of the children of the parent, and assigns the
    concatenation, which the host parses into new children that replace
    the old ones.  [renderPdf] does this once per page, so from the second
    page on it reads back what the host made of the pages before.

    The part of the host that is needed for it is modelled here for image
    elements: the serialisation of an HTML fragment and, state by state,
    the tokenizer of the HTML parser on start tags with double-quoted
    attribute values, for a parent in which the parser starts in the data
    state and builds the tree as in a body.  Whatever else the host can
    hold or read (text, other elements, character references, unquoted
    values, a [textarea] or a [table] as parent, ...) is outside the
    model: there [serialize] and [parse] give [None]. *)

Module Fragment.
Import JsString.

Local Open Scope N_scope.

(** An image element with its content attributes, in their order. *)
Inductive node : Type :=
| Img (attrs : list (jsstring * jsstring)).

#[global] Instance node_eq_dec : EqDecision node.
Proof. solve_decision. Defined.

(** The value of the first attribute of the name. *)
Fixpoint assoc (name : jsstring) (attrs : list (jsstring * jsstring)) : option jsstring :=
  match attrs with
  | [] => None
  | a :: attrs' => if bool_decide (a.1 = name) then Some a.2 else assoc name attrs'
  end.

(** [c.getAttribute( name )]. *)
Definition getAttribute (c : node) (name : jsstring) : option jsstring :=
  match c with Img attrs => assoc name attrs end.

(** The code units of attribute names that the model reads and writes:
    lower-case letters, digits and the hyphen. *)
Definition isNameChar (c : N) : bool :=
  between 97 122 c || between 48 57 c || (c =? 45).

(** The code units of attribute values that the model reads and writes.
    Left out are the ones that the host does not pass through unchanged.
    On reading, the double quote ends the value, the ampersand starts a
    character reference, NUL is replaced and a carriage return becomes a
    line feed.  On writing, the double quote, the ampersand and the
    no-break space are written as character references, and so are [<]
    and [>] in newer hosts.  Surrogates are left out as well. *)
Definition isValueChar (c : N) : bool :=
  negb ((c =? 0) || (c =? 13) || (c =? 34) || (c =? 38) || (c =? 60) || (c =? 62)
        || (c =? 160) || between 55296 57343 c).

Definition plain (value : jsstring) : bool := forallb isValueChar value.

Definition plainName (name : jsstring) : bool :=
  truthy name && forallb isNameChar name.

(** The elements the model describes: attribute names and values as
    above, no name twice. *)
Definition described (c : node) : bool :=
  match c with
  | Img attrs =>
      forallb (λ a, plainName a.1 && plain a.2) attrs && bool_decide (NoDup attrs.*1)
  end.

(** *** Serialisation: the getter of [innerHTML] *)

Definition serializeAttribute (a : jsstring * jsstring) : jsstring :=
  lit " " ++ a.1 ++ lit "=" ++ quot ++ a.2 ++ quot.

(** An image element is a void element: a start tag and no end tag. *)
Definition serializeNode (c : node) : jsstring :=
  match c with
  | Img attrs => lit "<img" ++ concat (serializeAttribute <$> attrs) ++ lit ">"
  end.

Definition serialize (childNodes : list node) : option jsstring :=
  if forallb described childNodes then Some (concat (serializeNode <$> childNodes))
  else None.

(** *** Parsing: the setter of [innerHTML]

    The states of the tokenizer that a start tag with double-quoted
    attribute values goes through.  The tag name state is entered with the
    first letter of the name; the states from the attributes on are those
    of an [img] tag and carry its attributes so far. *)
Inductive state : Type :=
| Data
| TagOpen
| TagName (name : jsstring)
| BeforeAttributeName (attrs : list (jsstring * jsstring))
| AttributeName (attrs : list (jsstring * jsstring)) (name : jsstring)
| BeforeAttributeValue (attrs : list (jsstring * jsstring)) (name : jsstring)
| AttributeValueDoubleQuoted (attrs : list (jsstring * jsstring)) (name value : jsstring)
| AfterAttributeValueQuoted (attrs : list (jsstring * jsstring))
| SelfClosingStartTag (attrs : list (jsstring * jsstring)).

(** An attribute whose name the tag has already is dropped. *)
Definition addAttribute (attrs : list (jsstring * jsstring)) (name value : jsstring)
  : list (jsstring * jsstring) :=
  if bool_decide (name ∈ attrs.*1) then attrs else attrs ++ [(name, value)].

(** Behind the tag name and behind a quoted attribute value: a space
    leads to the next attribute, [/] to the end of a self-closing tag, and
    [>] ends the tag, for which the tree builder appends the element. *)
Definition afterTagName (attrs : list (jsstring * jsstring)) (c : N)
  : option (state * option node) :=
  if c =? 32 then Some (BeforeAttributeName attrs, None)
  else if c =? 47 then Some (SelfClosingStartTag attrs, None)
  else if c =? 62 then Some (Data, Some (Img attrs))
  else None.

(** One code unit in one state: the next state and the element that has
    been completed, if any. *)
Definition step (st : state) (c : N) : option (state * option node) :=
  match st with
  | Data => if c =? 60 then Some (TagOpen, None) else None
  | TagOpen => if between 97 122 c then Some (TagName [c], None) else None
  | TagName name =>
      if between 97 122 c || between 48 57 c then Some (TagName (name ++ [c]), None)
      else if bool_decide (name = lit "img") then afterTagName [] c
      else None
  | BeforeAttributeName attrs =>
      if isNameChar c then Some (AttributeName attrs [c], None)
      else if c =? 32 then Some (BeforeAttributeName attrs, None)
      else if c =? 47 then Some (SelfClosingStartTag attrs, None)
      else if c =? 62 then Some (Data, Some (Img attrs))
      else None
  | AttributeName attrs name =>
      if isNameChar c then Some (AttributeName attrs (name ++ [c]), None)
      else if c =? 61 then Some (BeforeAttributeValue attrs name, None)
      else None
  | BeforeAttributeValue attrs name =>
      if c =? 34 then Some (AttributeValueDoubleQuoted attrs name [], None) else None
  | AttributeValueDoubleQuoted attrs name value =>
      if c =? 34 then Some (AfterAttributeValueQuoted (addAttribute attrs name value), None)
      else if isValueChar c then Some (AttributeValueDoubleQuoted attrs name (value ++ [c]), None)
      else None
  | AfterAttributeValueQuoted attrs => afterTagName attrs c
  | SelfClosingStartTag attrs =>
      if c =? 62 then Some (Data, Some (Img attrs)) else None
  end.

(** The two states behind which an attribute can follow or the tag can
    end: behind the tag name [img], with no attribute yet, and behind a
    quoted value. *)
Inductive opened : state → list (jsstring * jsstring) → Prop :=
| opened_name : opened (TagName (lit "img")) []
| opened_value attrs : opened (AfterAttributeValueQuoted attrs) attrs.

(** The tokenizer run over the markup, with the children appended so far.
    Markup that ends inside a tag is not described. *)
Fixpoint tokenize (st : state) (childNodes : list node) (s : jsstring)
  : option (list node) :=
  match s with
  | [] => match st with Data => Some childNodes | _ => None end
  | c :: s' =>
      match step st c with
      | Some (st', Some child) => tokenize st' (childNodes ++ [child]) s'
      | Some (st', None) => tokenize st' childNodes s'
      | None => None
      end
  end.

(** The parents the model describes, by node name: for them the parser
    starts in the data state, and the tree builder, in its mode for the
    content of a body, appends an element for every [img] tag. *)
Definition flowContext (nodeName : jsstring) : bool :=
  bool_decide (toLowerCase nodeName
               ∈ [ lit "div"; lit "section"; lit "article"; lit "aside"; lit "main";
                   lit "header"; lit "footer"; lit "figure"; lit "p"; lit "span";
                   lit "body" ]).

(** The children that the host makes of the markup assigned to the
    [innerHTML] of an element with the node name [context]. *)
Definition parse (context markup : jsstring) : option (list node) :=
  if flowContext context then tokenize Data [] markup else None.

End Fragment.

(** ** renderPdf on the children of the parent *)

Module PdfPages.
Import JsString Html Fragment.

(** The children of the elements, by the position of the element in the
    document; an element without entry has none. *)
Abbreviation children := (gmap nat (list node)).

(** [parent.innerHTML += markup], for a parent with the node name
    [context]. *)
Definition appendInnerHTML (context : jsstring) (parent : nat) (markup : jsstring)
    (cs : children) : option children :=
  content ← serialize (cs !!! parent);
  childNodes ← parse context (content ++ markup);
  Some (<[parent := childNodes]> cs).

(** The loop [for( let page = ...; page <= numberOfPages; ++page )]. *)
Equations? for_pages (src context : jsstring) (parent : nat) (numberOfPages : value)
    (page : Z) (cs : children) : option children
  by wf (Z.to_nat (Pdf.upper numberOfPages + 1 - page)) lt :=
  for_pages src context parent numberOfPages page cs
    with Pdf.inspect (Pdf.lessEq page numberOfPages) := {
    | exist _ true _ with appendInnerHTML context parent (Pdf.template src page) cs := {
        | Some cs' => for_pages src context parent numberOfPages (page + 1) cs';
        | None => None };
    | exist _ false _ => Some cs }.
Proof.
  destruct numberOfPages as [|n]; simpl in *; [discriminate|].
  apply Z.leb_le in e. lia.
Qed.

Section Engine.

(** The rendering engine: [roPageCount c] is what [c.roPageCount]
    evaluates to; [Undefined] where the engine does not provide the
    property. *)
Variable roPageCount : node -> value.

(** [renderPdf( parentSelector, src )] in a document [d] whose elements
    have the children [cs]; [parent.lastChild] is [null] when the parent
    has no child, and reading a property of [null] throws. *)
Definition renderPdf (parentSelector : selector) (src : jsstring) (d : document)
    (cs : children) : option (completion value * children) :=
  match querySelector d parentSelector with
  | None => Some (Throw TypeError, cs)
  | Some parent =>
      let context := nodeName (d !!! parent) in
      cs1 ← appendInnerHTML context parent (Pdf.template src 1) cs;
      match last (cs1 !!! parent) with
      | None => Some (Throw TypeError, cs1)
      | Some lastChild =>
          cs' ← for_pages src context parent (roPageCount lastChild) 2 cs1;
          Some (Normal Undefined, cs')
      end
  end.

End Engine.

(** The image element of a page: the source, the page as style and as
    class. *)
Definition image (src : jsstring) (page : Z) : node :=
  Img [ (lit "src", src);
        (lit "style", lit "-ro-source-page: " ++ numberToString page);
        (lit "class", lit "embedded-pdf page-" ++ numberToString page) ].

End PdfPages.

(** ** The document tree *)

Module Dom.

Abbreviation node := nat.

(** The part of a [DOMRect] the source reads. *)
Record rect : Type := Rect { width : Z; height : Z }.

(** The tree as the host keeps it: every node knows its parent, every
    parent the order of its children.  [attrs] are the attributes written
    through the selection, [rects] the geometry the layout reports. *)
Record dom : Type := Build_dom {
  parentOf : gmap nat nat;
  childNodesOf : gmap nat (list nat);
  attrs : gmap (nat * string) Z;
  rects : gmap nat rect }.

Definition children (d : dom) (p : node) : list node :=
  default [] (childNodesOf d !! p).

(** The two maps describe one tree: a node is listed once, and listed
    under the parent it names. *)
Definition consistent (d : dom) : Prop :=
  map_Forall (λ x p, x ∈ children d p) (parentOf d)
  ∧ map_Forall (λ p ks, NoDup ks ∧ Forall (λ k, parentOf d !! k = Some p) ks)
      (childNodesOf d).

#[global] Instance consistent_dec d : Decision (consistent d).
Proof. unfold consistent. apply _. Defined.

(** The element that follows [x] in a list of children. *)
Fixpoint next_in (x : node) (l : list node) : option node :=
  match l with
  | [] => None
  | y :: l' => if decide (y = x) then head l' else next_in x l'
  end.

Definition parentNode (d : dom) (x : node) : option node := parentOf d !! x.

Definition nextSibling (d : dom) (x : node) : option node :=
  match parentOf d !! x with
  | Some p => next_in x (children d p)
  | None => None
  end.

(** [a] is [x] or one of the ancestors of [x]. *)
Inductive ancestor (d : dom) (a : node) : node -> Prop :=
| ancestor_self : ancestor d a a
| ancestor_step x p : parentOf d !! x = Some p -> ancestor d a p -> ancestor d a x.

(** The check of the host for it: a walk from [x] towards the root, which
    in a tree passes each node that has a parent at most once. *)
Fixpoint ancestor_walk (fuel : nat) (d : dom) (a x : node) : bool :=
  if decide (a = x) then true
  else match fuel with
       | O => false
       | S fuel' =>
           match parentOf d !! x with
           | Some p => ancestor_walk fuel' d a p
           | None => false
           end
       end.

Definition inclusive_ancestor (d : dom) (a x : node) : bool :=
  ancestor_walk (size (parentOf d)) d a x.

(** Removing [x] from its parent, if it has one. *)
Definition detach (x : node) (d : dom) : dom :=
  match parentOf d !! x with
  | None => d
  | Some p =>
      Build_dom (delete x (parentOf d))
        (<[p := filter (λ y, y ≠ x) (children d p)]> (childNodesOf d))
        (attrs d) (rects d)
  end.

(** Placing [x] in front of [ref] in a list of children, or at its end. *)
Fixpoint place_before (r : node) (x : node) (l : list node) : list node :=
  match l with
  | [] => [x]
  | y :: l' => if decide (y = r) then x :: y :: l' else y :: place_before r x l'
  end.

Definition insert_at (ref : option node) (x : node) (l : list node) : list node :=
  match ref with
  | None => l ++ [x]
  | Some r => place_before r x l
  end.

(** State and completion of a call. *)
Definition M (A : Type) : Type := dom -> completion A * dom.

#[global] Instance M_ret : MRet M := λ A a d, (Normal a, d).
#[global] Instance M_bind : MBind M := λ A B f m d,
  match m d with
  | (Normal a, d') => f a d'
  | (Throw e, d') => (Throw e, d')
  end.

Definition throw {A} (e : exn) : M A := λ d, (Throw e, d).

(** [try { body } finally { cleanup }]: the cleanup runs on every exit of
    the body; when it completes normally the completion of the body
    stands, when it throws, its exception replaces that completion. *)
Definition try_finally {A B} (body : M A) (cleanup : M B) : M A := λ d,
  let '(r, d1) := body d in
  match cleanup d1 with
  | (Normal _, d2) => (r, d2)
  | (Throw e, d2) => (Throw e, d2)
  end.

(** A method call on a value that may be [null]. *)
Definition on {A} (o : option node) (method : node -> M A) : M A :=
  match o with
  | Some p => method p
  | None => throw TypeError
  end.

(** [parent.removeChild( child )]. *)
Definition removeChild (child : node) (parent : node) : M node := λ d,
  if decide (parentOf d !! child = Some parent)
  then (Normal child, detach child d)
  else (Throw NotFoundError, d).

(** A reference child that is given but is not a child of [parent]. *)
Definition foreign_reference (d : dom) (ref : option node) (parent : node) : bool :=
  match ref with
  | Some r => bool_decide (parentOf d !! r ≠ Some parent)
  | None => false
  end.

(** [parent.insertBefore( x, ref )]: the checks of the host in their
    order, then the move of [x] to its new place. *)
Definition insertBefore (x : node) (ref : option node) (parent : node) : M node := λ d,
  if inclusive_ancestor d x parent then (Throw HierarchyRequestError, d)
  else if foreign_reference d ref parent
  then (Throw NotFoundError, d)
  else
    let ref' := if decide (ref = Some x) then nextSibling d x else ref in
    let d1 := detach x d in
    (Normal x,
     Build_dom (<[x := parent]> (parentOf d1))
       (<[parent := insert_at ref' x (children d1 parent)]> (childNodesOf d1))
       (attrs d1) (rects d1)).

Definition getBoundingClientRect (x : node) : M rect := λ d,
  (Normal (default (Rect 0 0) (rects d !! x)), d).

(** [selection.attr( name, v )] of d3 on the selection of one node. *)
Definition attr (x : node) (name : string) (v : Z) : M unit := λ d,
  (Normal tt,
   Build_dom (parentOf d) (childNodesOf d) (<[(x, name) := v]> (attrs d)) (rects d)).

Definition get_parentNode (x : node) : M (option node) := λ d, (Normal (parentNode d x), d).
Definition get_nextSibling (x : node) : M (option node) := λ d, (Normal (nextSibling d x), d).

End Dom.

(** ** renderOffscreen *)

Module Offscreen.
Import Dom.

Section Host.

(** [document.querySelector], resolved by the host on the tree. *)
Context {selector : Type}.
Variable querySelector : selector -> dom -> option node.

(** The function handed to [renderFunction] as third argument. *)
Definition rendered (parentNode : option node) (svgElement : node)
    (nextSibling : option node) (whenRenderedTask : M value) : M value :=
  on parentNode (insertBefore svgElement nextSibling) ;;
  try_finally whenRenderedTask (on parentNode (removeChild svgElement)).

Definition renderOffscreen (sel : selector)
    (renderFunction : node -> rect -> (M value -> M value) -> M value) : M value :=
  found ← (λ d, (Normal (querySelector sel d), d));
  match found with
  | None => throw TypeError
  | Some svgElement =>
      rect ← getBoundingClientRect svgElement;
      let svg := svgElement in
      attr svg "width" (width rect) ;;
      attr svg "height" (height rect) ;;
      parentNode ← get_parentNode svgElement;
      nextSibling ← get_nextSibling svgElement;
      on parentNode (removeChild svgElement) ;;
      try_finally
        (renderFunction svg rect (rendered parentNode svgElement nextSibling))
        (on parentNode (insertBefore svgElement nextSibling)) ;;
      mret Undefined
  end.

(** The document in which [renderFunction] is invoked: width and height
    are stamped on the element and the element is removed. *)
Definition stamped (x : node) (d : dom) : dom :=
  let rect := default (Rect 0 0) (rects d !! x) in
  Build_dom (parentOf d) (childNodesOf d)
    (<[(x, "height"%string) := height rect]>
       (<[(x, "width"%string) := width rect]> (attrs d)))
    (rects d).

Definition atCallback (x : node) (d : dom) : dom := detach x (stamped x d).

(** What [renderOffscreen] completes with when [renderFunction]
    completed with [r]. *)
Definition outcome (r : completion value) : completion value :=
  match r with
  | Normal _ => Normal Undefined
  | Throw e => Throw e
  end.

(** The call on [d] completes as [renderFunction] did, with [x] back
    under [p] in front of the sibling it had in [d]. *)
Definition restored (sel : selector)
    (renderFunction : node -> rect -> (M value -> M value) -> M value)
    (d : dom) (x p : node) (r : completion value) : Prop :=
  ∃ d3, renderOffscreen sel renderFunction d = (outcome r, d3)
        ∧ parentOf d3 !! x = Some p
        ∧ nextSibling d3 x = nextSibling d x.

End Host.

(** The call of the run-attached function on [d] completes as the task
    did, with [x] removed again. *)
Definition detachedAgain (p x : node) (next : option node) (task : M value)
    (d : dom) (r : completion value) : Prop :=
  ∃ d3, rendered (Some p) x next task d = (r, d3) ∧ parentOf d3 !! x = None.

End Offscreen.

(** ** The documents of the test suite, and variations *)

Module Fixtures.
Import JsString Html.

Definition el (name : string) (attrs : list (string * jsstring)) (content : string)
  : element :=
  Element (lit name) (list_to_map attrs) (lit content) (lit content).

(** [div#toc], [h1], [h2], [h3], [h2#i-have-an-id], [h1]. *)
Definition headings : document :=
  [ el "DIV" [("id"%string, lit "toc")] EmptyString;
    el "H1" [] "1 Headline";
    el "H2" [] "1.1 Headline";
    el "H3" [] "1.1.1 Headline";
    el "H2" [("id"%string, lit "i-have-an-id")] "1.2 Headline";
    el "H1" [] "2 Headline" ].

(** The same with [data-toc-ignore] on the first [h2], and an [h2] whose
    [id] attribute is empty in place of the [h3]. *)
Definition headings_ignore : document :=
  [ el "DIV" [("id"%string, lit "toc")] EmptyString;
    el "H1" [] "1 Headline";
    el "H2" [("data-toc-ignore"%string, [])] "1.1 Headline";
    el "H2" [("id"%string, [])] "1.1.1 Headline";
    el "H2" [("id"%string, lit "i-have-an-id")] "1.2 Headline";
    el "H1" [] "2 Headline" ].

Definition toc : selector := [IdSelector (lit "toc")].

(** [div#toc] and one [h1] with emphasised text. *)
Definition emphasis : document :=
  [ el "DIV" [("id"%string, lit "toc")] EmptyString;
    Element (lit "H1") ∅ (lit " A b ") (lit " A <em>b</em> ") ].



(** A body (node 0) with the [svg] element (node 1) and a footer (node 2)
    behind it; the layout gives the [svg] 200 by 100. *)
Definition page : Dom.dom :=
  Dom.Build_dom {[ 1 := 0; 2 := 0 ]} {[ 0 := [1; 2] ]} ∅ {[ 1 := Dom.Rect 200 100 ]}.

Definition svg (sel : unit) (d : Dom.dom) : option nat := Some 1.

(** A callback that renders once attached, then fails:
    [( svg, rect, rendered ) => { rendered( () => 42 ); throw 7; }]. *)
Definition throwing (svg : nat) (rect : Dom.rect)
    (rendered : Dom.M value -> Dom.M value) : Dom.M value :=
  rendered (mret (Number 42)) ;; Dom.throw (Thrown (Number 7)).

(** A callback that takes the footer out of the body:
    [() => { body.removeChild( footer ); }]. *)
Definition removing_sibling (svg : nat) (rect : Dom.rect)
    (rendered : Dom.M value -> Dom.M value) : Dom.M value :=
  Dom.removeChild 2 0 ;; mret Undefined.

(** A task that itself asks for an attached run:
    [() => rendered( () => 42 )]. *)
Definition nested_task : Dom.M value :=
  Offscreen.rendered (Some 0) 1 (Some 2) (mret (Number 42)).

(** A task that measures and returns: [() => 42]. *)
Definition measuring_task : Dom.M value := mret (Number 42).

(** [ul#toc] with an item in it already, an [h1] and an [h2] with an
    identifier. *)
Definition headings_listed : document :=
  [ Element (lit "UL") {[ "id"%string := lit "toc" ]}
      (lit "Contents") (lit "<li>Contents</li>");
    el "H1" [] "1 Headline";
    el "H2" [("id"%string, lit "i-have-an-id")] "1.2 Headline" ].






End Fixtures.

(** ** Notions of the further properties *)

Module Notions.
Import JsString Html.

(** No hyphen of the string is followed by a hyphen. *)
Fixpoint singleHyphens (s : jsstring) : bool :=
  match s with
  | [] => true
  | a :: t =>
      negb ((a =? hyphen)%N && match t with b :: _ => (b =? hyphen)%N | [] => false end)
      && singleHyphens t
  end.

(** The code units of the decimal digits. *)
Definition isDigit (c : N) : Prop := (48 ≤ c ≤ 57)%N.

(** [div#toc] and one [h3]: nothing for the default selector. *)
Definition no_headings : document :=
  [ Fixtures.el "DIV" [("id"%string, lit "toc")] "old";
    Fixtures.el "H3" [] "1.1.1 Headline" ].

(** Two states of the host with the same tree: the same parents and the
    same lists of children. *)
Definition sameTree (d d' : Dom.dom) : Prop :=
  Dom.parentOf d = Dom.parentOf d' ∧ Dom.childNodesOf d = Dom.childNodesOf d'.

(** A callback that renders attached once and returns:
    [( svg, rect, rendered ) => rendered( () => 42 )]. *)
Definition measuring (svg : nat) (rect : Dom.rect)
    (rendered : Dom.M value -> Dom.M value) : Dom.M value :=
  rendered Fixtures.measuring_task.

End Notions.

(** * Properties *)

(** ** Strings: the scan and the blocks agree *)

Module JsStringFacts.
Import JsString.

Lemma blocks_head c s :
  ∃ r bs, blocks (c :: s) = (isWordChar c, r) :: bs.
Proof.
  simpl. destruct (blocks s) as [|[w r] bs]; [by eauto|].
  destruct (Bool.eqb w (isWordChar c)) eqn:E; [|by eauto].
  apply Bool.eqb_prop in E. subst w. eauto.
Qed.

(** The blocks are a cutting of the string ... *)
Lemma blocks_concat s : concat (map snd (blocks s)) = s.
Proof.
  induction s as [|c s IH]; [done|]. simpl.
  destruct (blocks s) as [|[w r] bs]; simpl in *; [by subst|].
  destruct (Bool.eqb w (isWordChar c)); simpl; by rewrite IH.
Qed.

(** ... into non-empty pieces of one class each ... *)
Lemma blocks_uniform s :
  Forall (λ b, b.2 ≠ [] ∧ Forall (λ c, isWordChar c = b.1) b.2) (blocks s).
Proof.
  induction s as [|c s IH]; simpl; [constructor|].
  destruct (blocks s) as [|[w r] bs]; simpl in *.
  - repeat constructor. done.
  - destruct (Bool.eqb w (isWordChar c)) eqn:E.
    + apply Bool.eqb_prop in E. inversion IH as [|? ? [_ Hr] Hbs]; subst.
      constructor; [|done]. split; [done|]. by constructor.
    + constructor; [|done]. split; [done|]. by repeat constructor.
Qed.

(** ... and no piece can be made longer: neighbours differ in class. *)
Lemma blocks_maximal s i b b' :
  blocks s !! i = Some b → blocks s !! S i = Some b' → b.1 ≠ b'.1.
Proof.
  revert i b b'. induction s as [|c s IH]; intros i b b'; simpl; [done|].
  destruct (blocks s) as [|[w r] bs] eqn:Hb; simpl in *.
  - by destruct i.
  - destruct (Bool.eqb w (isWordChar c)) eqn:E.
    + destruct i as [|i]; simpl.
      * intros [= <-] Hb'. simpl. by apply (IH 0 (w, r) b').
      * intros H1 H2. by apply (IH (S i) b b').
    + destruct i as [|i]; simpl.
      * intros [= <-] [= <-]. simpl. intros Hw. subst w.
        by rewrite Bool.eqb_reflx in E.
      * intros H1 H2. by apply (IH i b b').
Qed.

Lemma hyphenateRuns_word c s :
  isWordChar c = true → hyphenateRuns (c :: s) = c :: hyphenateRuns s.
Proof.
  intros Hc. unfold hyphenateRuns. simpl.
  destruct (blocks s) as [|[w r] bs]; simpl; rewrite Hc; [done|].
  destruct w; simpl; unfold renderBlock; simpl; by rewrite ?Hc.
Qed.

Lemma hyphenateRuns_nonword c s :
  isWordChar c = false →
  hyphenateRuns (c :: s) = hyphen :: hyphenateRuns (skipNonWord s).
Proof.
  intros Hc. revert c Hc. induction s as [|c' s IH]; intros c Hc.
  - unfold hyphenateRuns. simpl. unfold renderBlock. simpl. by rewrite Hc.
  - destruct (blocks_head c' s) as (r & bs & Hb).
    assert (Hstep : hyphenateRuns (c :: c' :: s)
                    = if isWordChar c' then hyphen :: hyphenateRuns (c' :: s)
                      else hyphenateRuns (c' :: s)).
    { unfold hyphenateRuns. change (blocks (c :: c' :: s)) with
        (match blocks (c' :: s) with
         | (w, r) :: bs =>
             if Bool.eqb w (isWordChar c) then (w, c :: r) :: bs
             else (isWordChar c, [c]) :: (w, r) :: bs
         | [] => [(isWordChar c, [c])]
         end).
      rewrite Hb, Hc. destruct (isWordChar c'); simpl; unfold renderBlock; simpl;
        by rewrite ?Hc. }
    rewrite Hstep. simpl. destruct (isWordChar c') eqn:Hc'; [done|].
    by apply IH.
Qed.

(** [replace( /\W+/g, '-' )] replaces every maximal run of non-word code
    units by a single hyphen. *)
Lemma replaceNonWord_hyphenateRuns s : replaceNonWord s = hyphenateRuns s.
Proof.
  funelim (replaceNonWord s); simp replaceNonWord.
  - done.
  - rewrite hyphenateRuns_word by done. by f_equal.
  - rewrite hyphenateRuns_nonword by done. by f_equal.
Qed.

End JsStringFacts.

(** ** Selector resolution *)

Module HtmlFacts.
Import JsString Html.

Lemma matching_from_ge sel i d : Forall (λ h, i ≤ h) (matching_from sel i d).
Proof.
  revert i. induction d as [|e d IH]; intros i; simpl; [constructor|].
  assert (Forall (λ h, i ≤ h) (matching_from sel (S i) d)).
  { eapply Forall_impl; [apply IH|]. simpl. lia. }
  destruct (matches sel e); [constructor; [lia|done]|done].
Qed.

Lemma matching_from_sorted sel i d : StronglySorted lt (matching_from sel i d).
Proof.
  revert i. induction d as [|e d IH]; intros i; simpl; [constructor|].
  destruct (matches sel e); [|done].
  constructor; [done|].
  eapply Forall_impl; [apply (matching_from_ge sel (S i) d)|]. simpl. lia.
Qed.

Lemma matching_from_elem sel i d h :
  h ∈ matching_from sel i d ↔
  ∃ e, i ≤ h ∧ d !! (h - i) = Some e ∧ matches sel e = true.
Proof.
  revert i. induction d as [|e d IH]; intros i; simpl.
  - split; [by intros ?%elem_of_nil|]. by intros (? & _ & ? & _).
  - assert (Hrest : h ∈ matching_from sel (S i) d ↔
              ∃ e', i ≤ h ∧ h ≠ i ∧ (e :: d) !! (h - i) = Some e' ∧ matches sel e' = true).
    { rewrite IH. split.
      - intros (e' & Hle & Hl & Hm). exists e'. repeat split; [lia|lia| |done].
        replace (h - i) with (S (h - S i)) by lia. done.
      - intros (e' & Hle & Hne & Hl & Hm). exists e'. repeat split; [lia| |done].
        replace (h - i) with (S (h - S i)) in Hl by lia. done. }
    destruct (matches sel e) eqn:Hm.
    + rewrite elem_of_cons, Hrest. split.
      * intros [->|(e' & ? & ? & ? & ?)]; [|by eauto].
        exists e. rewrite Nat.sub_diag. done.
      * intros (e' & Hle & Hl & Hm').
        destruct (decide (h = i)) as [->|]; [by left|]. right. eauto 6.
    + rewrite Hrest. split.
      * intros (e' & ? & ? & ? & ?). eauto.
      * intros (e' & Hle & Hl & Hm').
        destruct (decide (h = i)) as [->|]; [|by eauto 6].
        rewrite Nat.sub_diag in Hl. simpl in Hl. congruence.
Qed.

Lemma querySelectorAll_elem sel d h :
  h ∈ querySelectorAll d sel ↔ ∃ e, d !! h = Some e ∧ matches sel e = true.
Proof.
  unfold querySelectorAll. rewrite matching_from_elem.
  rewrite Nat.sub_0_r. split; [intros (e & _ & ?); eauto|intros (e & ?); exists e].
  split; [lia|done].
Qed.

Lemma querySelector_elem sel d h :
  querySelector d sel = Some h → ∃ e, d !! h = Some e ∧ matches sel e = true.
Proof.
  unfold querySelector. intros Hh. apply querySelectorAll_elem.
  destruct (querySelectorAll d sel); simpl in Hh; [done|].
  injection Hh as ->. by left.
Qed.

Lemma StronglySorted_lt_filter (P : nat → Prop) `{∀ x, Decision (P x)} l :
  StronglySorted lt l → StronglySorted lt (filter P l).
Proof.
  induction 1 as [|x l Hl IH Hx]; [constructor|].
  rewrite filter_cons. destruct (decide (P x)); [|done].
  constructor; [done|]. rewrite Forall_forall in *.
  intros y [_ Hy]%list_elem_of_filter. by apply Hx.
Qed.

Lemma StronglySorted_lt_NoDup l : StronglySorted lt l → NoDup l.
Proof.
  induction 1 as [|x l Hl IH Hx]; constructor; [|done].
  rewrite Forall_forall in Hx. intros Hin. specialize (Hx _ Hin). lia.
Qed.

(** In a strictly ascending list, the position of an entry is the number
    of entries below it. *)
Lemma StronglySorted_lt_position l k h :
  StronglySorted lt l → l !! k = Some h → length (filter (λ h', h' < h) l) = k.
Proof.
  intros Hs. revert k. induction Hs as [|x l Hl IH Hx]; intros k; [done|].
  rewrite Forall_forall in Hx. destruct k as [|k]; simpl.
  - intros [= ->]. rewrite filter_cons_False by lia.
    assert (Hnone : filter (λ h', h' < h) l = []); [|by rewrite Hnone].
    clear IH Hl. induction l as [|y l IHl]; [done|].
    rewrite filter_cons_False; [apply IHl; intros z Hz; apply Hx; by right|].
    pose proof (Hx y ltac:(by left)). lia.
  - intros Hk. assert (x < h) by (apply Hx; by eapply list_elem_of_lookup_2).
    rewrite filter_cons_True by done. simpl. f_equal. by apply IH.
Qed.

End HtmlFacts.

(** ** renderToc *)

Module TocFacts.
Import JsString Html Toc JsStringFacts HtmlFacts.

Lemma get_id_set_id v e : get_id (set_id v e) = v.
Proof. unfold get_id, set_id. simpl. by rewrite lookup_insert_eq. Qed.

Lemma template_entry content e index :
  template content (set_id (idFor e index) e) = content ++ entry e index.
Proof.
  unfold template, entry, listItem, link. rewrite get_id_set_id.
  change (nodeName (set_id (idFor e index) e)) with (nodeName e).
  change (innerHTML (set_id (idFor e index) e)) with (innerHTML e).
  by rewrite <- !app_assoc.
Qed.

(** The refs that pass the filter: ascending, and exactly the matched
    elements without a [data-toc-ignore] attribute. *)
Lemma headingRefs_sorted d sel : StronglySorted lt (headingRefs d sel).
Proof. apply StronglySorted_lt_filter, matching_from_sorted. Qed.

Lemma headingRefs_elem d sel h :
  h ∈ headingRefs d sel ↔
  ∃ e, d !! h = Some e ∧ matches sel e = true
       ∧ getAttribute e "data-toc-ignore" = None.
Proof.
  unfold headingRefs. rewrite list_elem_of_filter, querySelectorAll_elem. split.
  - intros (Hi & e & He & Hm). exists e.
    by rewrite (list_lookup_total_correct _ _ _ He) in Hi.
  - intros (e & He & Hm & Hi). rewrite (list_lookup_total_correct _ _ _ He). eauto.
Qed.

Lemma headingRefs_lt d sel h : h ∈ headingRefs d sel → h < length d.
Proof. intros (e & He & _)%headingRefs_elem. by eapply lookup_lt_Some. Qed.

(** The run of the reduce: the accumulated markup, and what each step
    has written to the document. *)
Lemma reduce_tocCallback hs : ∀ index d content,
  NoDup hs → (∀ h, h ∈ hs → h < length d) →
  ∃ d', reduce_from tocCallback hs index (d, content)
        = (d', content ++ concat (imap (λ k h, entry (d !!! h) (index + k)) hs))
    ∧ length d' = length d
    ∧ (∀ k h, hs !! k = Some h →
         d' !!! h = set_id (idFor (d !!! h) (index + k)) (d !!! h))
    ∧ (∀ j, j ∉ hs → d' !! j = d !! j).
Proof.
  induction hs as [|h hs IH]; intros index d content Hnd Hlt.
  - exists d. simpl. rewrite app_nil_r. repeat split; done.
  - apply NoDup_cons in Hnd as [Hh Hnd].
    assert (Hhd : h < length d) by (apply Hlt; by left).
    set (d1 := <[h := set_id (idFor (d !!! h) index) (d !!! h)]> d).
    assert (Hother : ∀ j, j ≠ h → d1 !! j = d !! j).
    { intros j Hj. unfold d1. by rewrite list_lookup_insert_ne. }
    assert (Hother' : ∀ j, j ≠ h → d1 !!! j = d !!! j).
    { intros j Hj. by rewrite !list_lookup_total_alt, Hother. }
    destruct (IH (S index) d1
                (template content (d1 !!! h)) Hnd) as (d' & Hrun & Hlen & Hset & Hrest).
    { intros j Hj. unfold d1. rewrite length_insert. apply Hlt. by right. }
    exists d'.
    change (reduce_from tocCallback (h :: hs) index (d, content))
      with (reduce_from tocCallback hs (S index) (d1, template content (d1 !!! h))).
    rewrite Hrun. repeat split.
    + f_equal. unfold d1 at 1. rewrite list_lookup_total_insert_eq by done.
      rewrite template_entry, <- app_assoc. f_equal.
      rewrite imap_cons, Nat.add_0_r. cbn [concat]. f_equal. f_equal.
      apply imap_ext. intros k j Hk. unfold compose.
      assert (j ≠ h) by (intros ->; apply Hh; by eapply list_elem_of_lookup_2).
      rewrite Hother' by done. f_equal. lia.
    + rewrite Hlen. unfold d1. by rewrite length_insert.
    + intros [|k] j; simpl.
      * intros [= <-]. rewrite Nat.add_0_r.
        rewrite (list_lookup_total_alt d'), (Hrest h Hh). unfold d1.
        by rewrite list_lookup_insert_eq.
      * intros Hk.
        assert (j ≠ h) by (intros ->; apply Hh; by eapply list_elem_of_lookup_2).
        rewrite (Hset k j Hk), Hother' by done. do 2 f_equal. lia.
    + intros j Hj. apply not_elem_of_cons in Hj as [Hjh Hj].
      by rewrite Hrest, Hother.
Qed.

(** What a call of [renderToc] does when the target is found. *)
Lemma renderToc_run target sel d tocList :
  querySelector d target = Some tocList →
  ∃ d', renderToc target sel d = (Normal Undefined, d')
    ∧ length d' = length d
    ∧ innerHTML (d' !!! tocList)
      = innerHTML (d !!! tocList)
          ++ concat (imap (λ k h, entry (d !!! h) k) (headingRefs d sel))
    ∧ (∀ k h, headingRefs d sel !! k = Some h →
         attributes (d' !!! h)
         = <["id"%string := idFor (d !!! h) k]> (attributes (d !!! h)))
    ∧ (∀ j, j ∉ headingRefs d sel → attributes (d' !!! j) = attributes (d !!! j)).
Proof.
  intros Htoc. unfold renderToc. rewrite Htoc.
  destruct (querySelector_elem _ _ _ Htoc) as (t & Ht & _).
  assert (Hlt : tocList < length d) by by eapply lookup_lt_Some.
  destruct (reduce_tocCallback (headingRefs d sel) 0 d (innerHTML (d !!! tocList)))
    as (dA & Hrun & Hlen & Hset & Hrest).
  { apply StronglySorted_lt_NoDup, headingRefs_sorted. }
  { apply headingRefs_lt. }
  unfold reduce. fold (headingRefs d sel). rewrite Hrun.
  eexists. split; [done|].
  assert (Hattr : ∀ j, attributes
            (<[tocList := set_innerHTML
                 (innerHTML (d !!! tocList)
                    ++ concat (imap (λ k h, entry (d !!! h) (0 + k)) (headingRefs d sel)))
                 (dA !!! tocList)]> dA !!! j) = attributes (dA !!! j)).
  { intros j. destruct (decide (j = tocList)) as [->|].
    - rewrite list_lookup_total_insert_eq by lia. done.
    - by rewrite list_lookup_total_insert_ne. }
  repeat split.
  - by rewrite length_insert.
  - rewrite list_lookup_total_insert_eq by lia. done.
  - intros k h Hk. rewrite Hattr, (Hset k h Hk). done.
  - intros j Hj. rewrite Hattr. by rewrite !list_lookup_total_alt, Hrest.
Qed.

Lemma filter_lt_succ hs n :
  NoDup hs →
  length (filter (λ x, x < S n) hs)
  = length (filter (λ x, x < n) hs) + (if decide (n ∈ hs) then 1 else 0).
Proof.
  induction 1 as [|a hs Ha Hnd IH]; [done|].
  rewrite !filter_cons.
  destruct (decide (a = n)) as [->|Hne].
  - rewrite decide_True, decide_False by lia.
    rewrite (decide_True (P := n ∈ n :: hs)) by by left.
    rewrite decide_False in IH by done. simpl. lia.
  - assert (Hiff : n ∈ a :: hs ↔ n ∈ hs).
    { rewrite elem_of_cons. intuition congruence. }
    destruct (decide (a < n)).
    + rewrite decide_True by lia. simpl. rewrite IH.
      destruct (decide (n ∈ hs)), (decide (n ∈ a :: hs)); first [lia|exfalso; tauto].
    + rewrite decide_False by lia. rewrite IH.
      destruct (decide (n ∈ hs)), (decide (n ∈ a :: hs)); first [lia|exfalso; tauto].
Qed.

(** The index a heading is processed with counts the matched, non-ignored
    elements in front of it in the document. *)
Lemma headingRefs_count d sel n :
  length (filter (λ x, x < n) (headingRefs d sel))
  = length (filter (λ e, matches sel e = true
                         ∧ getAttribute e "data-toc-ignore" = None) (take n d)).
Proof.
  induction n as [|n IH].
  - rewrite take_0. simpl.
    induction (headingRefs d sel) as [|a l IHl]; [done|].
    by rewrite filter_cons_False by lia.
  - rewrite filter_lt_succ
      by (apply StronglySorted_lt_NoDup, headingRefs_sorted).
    rewrite IH. destruct (d !! n) as [e|] eqn:He.
    + rewrite (take_S_r _ _ _ He), filter_app, length_app. f_equal.
      rewrite filter_cons, filter_nil.
      destruct (decide (n ∈ headingRefs d sel)) as [Hin|Hin].
      * apply headingRefs_elem in Hin as (e' & He' & ? & ?).
        assert (e' = e) by congruence. subst. by rewrite decide_True.
      * rewrite decide_False; [done|]. intros [? ?]. apply Hin.
        apply headingRefs_elem. eauto.
    + rewrite decide_False.
      * apply lookup_ge_None in He. rewrite !take_ge by lia. lia.
      * intros (e & ? & _)%headingRefs_elem. congruence.
Qed.

Lemma headingRefs_index d sel k h :
  headingRefs d sel !! k = Some h →
  k = length (filter (λ e, matches sel e = true
                           ∧ getAttribute e "data-toc-ignore" = None) (take h d)).
Proof.
  intros Hk. rewrite <- headingRefs_count. symmetry.
  eapply StronglySorted_lt_position; [apply headingRefs_sorted|done].
Qed.

Lemma idFor_generated e index :
  get_id e = [] →
  idFor e index = hyphenateRuns (trim (textContent e)) ++ numberToString (Z.of_nat index).
Proof. unfold idFor. intros ->. simpl. by rewrite replaceNonWord_hyphenateRuns. Qed.

Lemma idFor_kept e index i :
  attributes e !! "id"%string = Some i → i ≠ [] → idFor e index = i.
Proof.
  unfold idFor, get_id. intros -> Hi. simpl. by destruct i.
Qed.

Lemma matches_default e :
  matches headingSelector_default e = true ↔
  toLowerCase (nodeName e) = lit "h1" ∨ toLowerCase (nodeName e) = lit "h2".
Proof.
  unfold matches, headingSelector_default, existsb, matches_simple.
  rewrite !orb_true_iff, !bool_decide_eq_true.
  change (toLowerCase (lit "h1")) with (lit "h1").
  change (toLowerCase (lit "h2")) with (lit "h2"). intuition discriminate.
Qed.

End TocFacts.

Module TocClaims.
Import JsString Html Toc JsStringFacts HtmlFacts TocFacts.

(** C3.  With the default heading selector, the markup that [renderToc]
    appends is one entry per [h1] or [h2] element without
    [data-toc-ignore], in document order; an [h3] gets none.  An entry is
    a list item of class [level-] followed by the lower-cased node name,
    holding one link whose fragment is the identifier the heading has
    after the call and whose content is the heading's [innerHTML]. *)
Theorem renderToc_default_entries d target tocList :
  querySelector d target = Some tocList →
  ∃ d' hs,
    renderToc target headingSelector_default d = (Normal Undefined, d')
    ∧ StronglySorted lt hs
    ∧ (∀ h, h ∈ hs ↔
         ∃ e, d !! h = Some e
              ∧ (toLowerCase (nodeName e) = lit "h1"
                 ∨ toLowerCase (nodeName e) = lit "h2")
              ∧ getAttribute e "data-toc-ignore" = None)
    ∧ (∀ h e, d !! h = Some e → toLowerCase (nodeName e) = lit "h3" → h ∉ hs)
    ∧ innerHTML (d' !!! tocList)
      = innerHTML (d !!! tocList)
          ++ concat (map (λ h,
               listItem (lit "level-" ++ toLowerCase (nodeName (d !!! h)))
                 (link (get_id (d' !!! h)) (innerHTML (d !!! h)))) hs).
Proof.
  intros Htoc.
  destruct (renderToc_run target headingSelector_default d tocList Htoc)
    as (d' & Hrun & _ & Hhtml & Hset & _).
  assert (Hin : ∀ h, h ∈ headingRefs d headingSelector_default ↔
            ∃ e, d !! h = Some e
                 ∧ (toLowerCase (nodeName e) = lit "h1"
                    ∨ toLowerCase (nodeName e) = lit "h2")
                 ∧ getAttribute e "data-toc-ignore" = None).
  { intros h. rewrite headingRefs_elem. by setoid_rewrite matches_default. }
  exists d', (headingRefs d headingSelector_default).
  split; [done|]. split; [apply headingRefs_sorted|]. split; [done|]. split.
  - intros h e He H3 (e' & He' & [H1|H2] & _)%Hin;
      assert (e' = e) by congruence; subst e'; rewrite H3 in *; discriminate.
  - rewrite Hhtml. do 2 f_equal. rewrite <- imap_const.
    apply imap_ext. intros k h Hk. unfold const, entry, get_id. cbv beta.
    by rewrite (Hset k h Hk), lookup_insert_eq.
Qed.

Lemma renderToc_default_entries_witness :
  querySelector Fixtures.headings Fixtures.toc = Some 0
  ∧ ∃ d' hs,
      renderToc Fixtures.toc headingSelector_default Fixtures.headings
      = (Normal Undefined, d')
      ∧ StronglySorted lt hs
      ∧ (∀ h, h ∈ hs ↔
           ∃ e, Fixtures.headings !! h = Some e
                ∧ (toLowerCase (nodeName e) = lit "h1"
                   ∨ toLowerCase (nodeName e) = lit "h2")
                ∧ getAttribute e "data-toc-ignore" = None)
      ∧ (∀ h e, Fixtures.headings !! h = Some e
                → toLowerCase (nodeName e) = lit "h3" → h ∉ hs)
      ∧ innerHTML (d' !!! 0)
        = innerHTML (Fixtures.headings !!! 0)
            ++ concat (map (λ h,
                 listItem (lit "level-" ++ toLowerCase (nodeName (Fixtures.headings !!! h)))
                   (link (get_id (d' !!! h)) (innerHTML (Fixtures.headings !!! h)))) hs).
Proof.
  split; [reflexivity|].
  apply (renderToc_default_entries Fixtures.headings Fixtures.toc 0). reflexivity.
Defined.

(** C4.  The markup appended to the target is the sequence of the entries
    of the headings of the filtered sequence, the heading at index [k]
    giving the entry at position [k].  A heading at index [k] that has no
    [id] attribute gets as identifier its trimmed text content, every
    maximal run of non-word characters turned into one hyphen, followed by
    [k].  A heading with a non-empty [id] keeps its attributes as they
    are, and the entry at position [k] is its entry, linking to that
    identifier. *)
Theorem renderToc_heading_id d target sel tocList k h :
  querySelector d target = Some tocList →
  headingRefs d sel !! k = Some h →
  ∃ d',
    renderToc target sel d = (Normal Undefined, d')
    ∧ innerHTML (d' !!! tocList)
      = innerHTML (d !!! tocList)
          ++ concat (imap (λ k h, entry (d !!! h) k) (headingRefs d sel))
    ∧ imap (λ k h, entry (d !!! h) k) (headingRefs d sel) !! k
      = Some (listItem (lit "level-" ++ toLowerCase (nodeName (d !!! h)))
                (link (get_id (d' !!! h)) (innerHTML (d !!! h))))
    ∧ (attributes (d !!! h) !! "id"%string = None →
         get_id (d' !!! h)
         = hyphenateRuns (trim (textContent (d !!! h))) ++ numberToString (Z.of_nat k))
    ∧ (∀ i, attributes (d !!! h) !! "id"%string = Some i → i ≠ [] →
         attributes (d' !!! h) = attributes (d !!! h)
         ∧ imap (λ k h, entry (d !!! h) k) (headingRefs d sel) !! k
           = Some (listItem (lit "level-" ++ toLowerCase (nodeName (d !!! h)))
                     (link i (innerHTML (d !!! h))))).
Proof.
  intros Htoc Hk.
  destruct (renderToc_run target sel d tocList Htoc)
    as (d' & Hrun & _ & Hhtml & Hset & _).
  exists d'. split; [done|]. split; [done|]. split; [|split].
  - rewrite list_lookup_imap, Hk. simpl. unfold entry, get_id at 1.
    by rewrite (Hset k h Hk), lookup_insert_eq.
  - intros Hid. unfold get_id at 1. rewrite (Hset k h Hk), lookup_insert_eq. simpl.
    apply idFor_generated. unfold get_id. by rewrite Hid.
  - intros i Hid Hi. rewrite (Hset k h Hk), (idFor_kept _ _ i) by done. split.
    + by apply insert_id.
    + rewrite list_lookup_imap, Hk. simpl. unfold entry.
      by rewrite (idFor_kept _ _ i).
Qed.

Lemma renderToc_heading_id_witness :
  querySelector Fixtures.headings Fixtures.toc = Some 0
  ∧ headingRefs Fixtures.headings headingSelector_default !! 2 = Some 4
  ∧ ∃ d',
      renderToc Fixtures.toc headingSelector_default Fixtures.headings
      = (Normal Undefined, d')
      ∧ innerHTML (d' !!! 0)
        = innerHTML (Fixtures.headings !!! 0)
            ++ concat (imap (λ k h, entry (Fixtures.headings !!! h) k)
                         (headingRefs Fixtures.headings headingSelector_default))
      ∧ imap (λ k h, entry (Fixtures.headings !!! h) k)
          (headingRefs Fixtures.headings headingSelector_default) !! 2
        = Some (listItem
                  (lit "level-" ++ toLowerCase (nodeName (Fixtures.headings !!! 4)))
                  (link (get_id (d' !!! 4)) (innerHTML (Fixtures.headings !!! 4))))
      ∧ (attributes (Fixtures.headings !!! 4) !! "id"%string = None →
           get_id (d' !!! 4)
           = hyphenateRuns (trim (textContent (Fixtures.headings !!! 4)))
               ++ numberToString (Z.of_nat 2))
      ∧ (∀ i, attributes (Fixtures.headings !!! 4) !! "id"%string = Some i → i ≠ [] →
           attributes (d' !!! 4) = attributes (Fixtures.headings !!! 4)
           ∧ imap (λ k h, entry (Fixtures.headings !!! h) k)
               (headingRefs Fixtures.headings headingSelector_default) !! 2
             = Some (listItem
                       (lit "level-" ++ toLowerCase (nodeName (Fixtures.headings !!! 4)))
                       (link i (innerHTML (Fixtures.headings !!! 4))))).
Proof.
  split; [reflexivity|]. split; [reflexivity|].
  apply (renderToc_heading_id Fixtures.headings Fixtures.toc headingSelector_default 0 2 4);
    reflexivity.
Defined.

(** C5.  An element with a [data-toc-ignore] attribute, whatever its
    value, is not among the headings that get an entry, and its
    attributes, the identifier among them, are left as they are.  It takes
    no index: a heading without identifier gets as number the count of
    the matched elements without [data-toc-ignore] in front of it. *)
Theorem renderToc_ignored d target sel tocList j e v :
  querySelector d target = Some tocList →
  d !! j = Some e →
  getAttribute e "data-toc-ignore" = Some v →
  ∃ d',
    renderToc target sel d = (Normal Undefined, d')
    ∧ (j ∉ headingRefs d sel)
    ∧ innerHTML (d' !!! tocList)
      = innerHTML (d !!! tocList)
          ++ concat (imap (λ k h, entry (d !!! h) k) (headingRefs d sel))
    ∧ attributes (d' !!! j) = attributes e
    ∧ (∀ h eh, d !! h = Some eh → matches sel eh = true →
         getAttribute eh "data-toc-ignore" = None → get_id eh = [] →
         get_id (d' !!! h)
         = hyphenateRuns (trim (textContent eh))
             ++ numberToString (Z.of_nat (length
                  (filter (λ e', matches sel e' = true
                                 ∧ getAttribute e' "data-toc-ignore" = None)
                     (take h d))))).
Proof.
  intros Htoc Hj Hv.
  destruct (renderToc_run target sel d tocList Htoc)
    as (d' & Hrun & _ & Hhtml & Hset & Hrest).
  assert (Hnot : j ∉ headingRefs d sel).
  { intros (e' & He' & _ & Hn)%headingRefs_elem. congruence. }
  exists d'. split; [done|]. split; [done|]. split; [done|]. split.
  - by rewrite (Hrest j Hnot), (list_lookup_total_correct _ _ _ Hj).
  - intros h eh Hh Hm Hi Hid.
    assert (Hin : h ∈ headingRefs d sel) by (apply headingRefs_elem; eauto).
    apply list_elem_of_lookup in Hin as [k Hk].
    unfold get_id at 1. rewrite (Hset k h Hk), lookup_insert_eq. simpl.
    rewrite (list_lookup_total_correct _ _ _ Hh), idFor_generated by done.
    by rewrite (headingRefs_index d sel k h Hk).
Qed.

Lemma renderToc_ignored_witness :
  querySelector Fixtures.headings_ignore Fixtures.toc = Some 0
  ∧ Fixtures.headings_ignore !! 2
    = Some (Fixtures.el "H2" [("data-toc-ignore"%string, [])] "1.1 Headline")
  ∧ getAttribute (Fixtures.el "H2" [("data-toc-ignore"%string, [])] "1.1 Headline")
      "data-toc-ignore" = Some []
  ∧ ∃ d',
      renderToc Fixtures.toc headingSelector_default Fixtures.headings_ignore
      = (Normal Undefined, d')
      ∧ (2 ∉ headingRefs Fixtures.headings_ignore headingSelector_default)
      ∧ innerHTML (d' !!! 0)
        = innerHTML (Fixtures.headings_ignore !!! 0)
            ++ concat (imap (λ k h, entry (Fixtures.headings_ignore !!! h) k)
                         (headingRefs Fixtures.headings_ignore headingSelector_default))
      ∧ attributes (d' !!! 2)
        = attributes (Fixtures.el "H2" [("data-toc-ignore"%string, [])] "1.1 Headline")
      ∧ (∀ h eh, Fixtures.headings_ignore !! h = Some eh →
           matches headingSelector_default eh = true →
           getAttribute eh "data-toc-ignore" = None → get_id eh = [] →
           get_id (d' !!! h)
           = hyphenateRuns (trim (textContent eh))
               ++ numberToString (Z.of_nat (length
                    (filter (λ e', matches headingSelector_default e' = true
                                   ∧ getAttribute e' "data-toc-ignore" = None)
                       (take h Fixtures.headings_ignore))))).
Proof.
  split; [reflexivity|]. split; [reflexivity|]. split; [reflexivity|].
  apply (renderToc_ignored Fixtures.headings_ignore Fixtures.toc
           headingSelector_default 0 2
           (Fixtures.el "H2" [("data-toc-ignore"%string, [])] "1.1 Headline") []);
    reflexivity.
Defined.

(** C8.  The markup of the target after the call is its markup before the
    call, followed by the entries of the headings. *)
Theorem renderToc_appends d target sel tocList :
  querySelector d target = Some tocList →
  ∃ d',
    renderToc target sel d = (Normal Undefined, d')
    ∧ innerHTML (d' !!! tocList)
      = innerHTML (d !!! tocList)
          ++ concat (imap (λ k h, entry (d !!! h) k) (headingRefs d sel)).
Proof.
  intros Htoc.
  destruct (renderToc_run target sel d tocList Htoc) as (d' & Hrun & _ & Hhtml & _).
  by exists d'.
Qed.

Lemma renderToc_appends_witness :
  querySelector Fixtures.headings_listed Fixtures.toc = Some 0
  ∧ ∃ d',
      renderToc Fixtures.toc headingSelector_default Fixtures.headings_listed
      = (Normal Undefined, d')
      ∧ innerHTML (d' !!! 0)
        = innerHTML (Fixtures.headings_listed !!! 0)
            ++ concat (imap (λ k h, entry (Fixtures.headings_listed !!! h) k)
                         (headingRefs Fixtures.headings_listed headingSelector_default)).
Proof.
  split; [reflexivity|].
  apply (renderToc_appends Fixtures.headings_listed Fixtures.toc headingSelector_default 0).
  reflexivity.
Defined.

(** C10.  A heading whose [id] attribute is present and empty is treated
    as one without identifier: it gets the derived identifier. *)
Theorem renderToc_empty_id d target sel tocList k h :
  querySelector d target = Some tocList →
  headingRefs d sel !! k = Some h →
  attributes (d !!! h) !! "id"%string = Some [] →
  ∃ d',
    renderToc target sel d = (Normal Undefined, d')
    ∧ attributes (d' !!! h) !! "id"%string
      = Some (hyphenateRuns (trim (textContent (d !!! h)))
                ++ numberToString (Z.of_nat k)).
Proof.
  intros Htoc Hk Hid.
  destruct (renderToc_run target sel d tocList Htoc)
    as (d' & Hrun & _ & _ & Hset & _).
  exists d'. split; [done|].
  rewrite (Hset k h Hk), lookup_insert_eq. f_equal.
  apply idFor_generated. unfold get_id. by rewrite Hid.
Qed.

Lemma renderToc_empty_id_witness :
  querySelector Fixtures.headings_ignore Fixtures.toc = Some 0
  ∧ headingRefs Fixtures.headings_ignore headingSelector_default !! 1 = Some 3
  ∧ attributes (Fixtures.headings_ignore !!! 3) !! "id"%string = Some []
  ∧ ∃ d',
      renderToc Fixtures.toc headingSelector_default Fixtures.headings_ignore
      = (Normal Undefined, d')
      ∧ attributes (d' !!! 3) !! "id"%string
        = Some (hyphenateRuns (trim (textContent (Fixtures.headings_ignore !!! 3)))
                  ++ numberToString (Z.of_nat 1)).
Proof.
  split; [reflexivity|]. split; [reflexivity|]. split; [reflexivity|].
  apply (renderToc_empty_id Fixtures.headings_ignore Fixtures.toc
           headingSelector_default 0 1 3); reflexivity.
Defined.

(** The identifiers of the test suite: ["1 Headline"] at index 0 becomes
    ["1-Headline0"], and [i-have-an-id] stays. *)
Example renderToc_headings_ids :
  map get_id (snd (renderToc Fixtures.toc headingSelector_default Fixtures.headings))
  = [lit "toc"; lit "1-Headline0"; lit "1-1-Headline1"; [];
     lit "i-have-an-id"; lit "2-Headline3"].
Proof. vm_compute. reflexivity. Qed.

(** The markup of the heading goes into the link as it is, the trimmed
    text into the identifier. *)
Example renderToc_emphasis :
  innerHTML (snd (renderToc Fixtures.toc headingSelector_default Fixtures.emphasis) !!! 0)
  = newline ++ indent12 ++ lit "<li class=" ++ quot ++ lit "level-h1" ++ quot ++ lit ">"
      ++ newline ++ indent15 ++ lit "<a href=" ++ quot ++ lit "#A-b0" ++ quot
      ++ lit "> A <em>b</em> </a>"
      ++ newline ++ indent12 ++ lit "</li>".
Proof. vm_compute. reflexivity. Qed.

(** With [data-toc-ignore] on the first [h2], the numbers close up. *)
Example renderToc_headings_ignore_ids :
  map get_id
    (snd (renderToc Fixtures.toc headingSelector_default Fixtures.headings_ignore))
  = [lit "toc"; lit "1-Headline0"; []; lit "1-1-1-Headline1";
     lit "i-have-an-id"; lit "2-Headline3"].
Proof. vm_compute. reflexivity. Qed.

(** A target that holds an item already keeps it in front of the two new
    entries. *)
Example renderToc_headings_listed :
  innerHTML (snd (renderToc Fixtures.toc headingSelector_default Fixtures.headings_listed)
             !!! 0)
  = lit "<li>Contents</li>"
      ++ listItem (lit "level-h1") (link (lit "1-Headline0") (lit "1 Headline"))
      ++ listItem (lit "level-h2") (link (lit "i-have-an-id") (lit "1.2 Headline")).
Proof. vm_compute. reflexivity. Qed.

End TocClaims.

(** ** renderPdf *)

Module PdfFacts.
Import JsString Html Pdf HtmlFacts.










End PdfFacts.

Module PdfClaims.
Import JsString Html Pdf HtmlFacts PdfFacts.



(** The class of the second page is [embedded-pdf page-2]. *)
Example template_page_2 :
  template (lit "pdf-file.pdf") 2
  = lit "<img src=" ++ quot ++ lit "pdf-file.pdf" ++ quot
      ++ lit " style=" ++ quot ++ lit "-ro-source-page: 2" ++ quot
      ++ lit " class=" ++ quot ++ lit "embedded-pdf page-2" ++ quot ++ lit " />".
Proof. reflexivity. Qed.

End PdfClaims.

(** ** renderPdf on the children of the parent *)

Module FragmentFacts.
Import JsString Fragment.

Local Open Scope N_scope.

Lemma isNameChar_step c :
  isNameChar c = true →
  (c =? 32) = false ∧ (c =? 47) = false ∧ (c =? 61) = false ∧ (c =? 62) = false.
Proof.
  unfold isNameChar, between.
  rewrite !orb_true_iff, !andb_true_iff, !N.leb_le, N.eqb_eq.
  intros H. repeat split; apply N.eqb_neq; lia.
Qed.

Lemma isValueChar_step c : isValueChar c = true → (c =? 34) = false.
Proof.
  unfold isValueChar. rewrite negb_true_iff, !orb_false_iff. tauto.
Qed.

(** A value is read up to the double quote that ends it. *)
Lemma tokenize_value attrs name rest childNodes value : ∀ acc,
  plain value = true →
  tokenize (AttributeValueDoubleQuoted attrs name acc) childNodes (value ++ 34 :: rest)
  = tokenize (AfterAttributeValueQuoted (addAttribute attrs name (acc ++ value)))
      childNodes rest.
Proof.
  induction value as [|c value IH]; intros acc Hv.
  - by rewrite app_nil_r.
  - apply andb_true_iff in Hv as [Hc Hv].
    cbn [app tokenize step]. rewrite (isValueChar_step c Hc), Hc.
    rewrite IH by done. by rewrite <- app_assoc.
Qed.

Lemma tokenize_name attrs rest childNodes name : ∀ acc,
  forallb isNameChar name = true →
  tokenize (AttributeName attrs acc) childNodes (name ++ 61 :: rest)
  = tokenize (BeforeAttributeValue attrs (acc ++ name)) childNodes rest.
Proof.
  induction name as [|c name IH]; intros acc Hn.
  - by rewrite app_nil_r.
  - apply andb_true_iff in Hn as [Hc Hn].
    cbn [app tokenize step]. rewrite Hc.
    rewrite IH by done. by rewrite <- app_assoc.
Qed.

Lemma opened_step st attrs c :
  opened st attrs →
  (between 97 122 c || between 48 57 c) = false →
  step st c = afterTagName attrs c.
Proof. intros [|] Hc; cbn [step]; [by rewrite Hc|done]. Qed.

Lemma tokenize_attribute st attrs a rest childNodes :
  opened st attrs →
  plainName a.1 = true → plain a.2 = true →
  tokenize st childNodes (serializeAttribute a ++ rest)
  = tokenize (AfterAttributeValueQuoted (addAttribute attrs a.1 a.2)) childNodes rest.
Proof.
  destruct a as [name value]. cbn [fst snd]. intros Hst Hn Hv.
  apply andb_true_iff in Hn as [Hne Hn].
  destruct name as [|c name]; [done|].
  apply andb_true_iff in Hn as [Hc Hn].
  unfold serializeAttribute. cbn [fst snd].
  change (lit " ") with [32]. change (lit "=") with [61]. unfold quot.
  rewrite <- !app_assoc. cbn [app tokenize].
  rewrite (opened_step st attrs 32 Hst) by done. cbn [afterTagName N.eqb Pos.eqb].
  cbn [step]. rewrite Hc.
  rewrite (tokenize_name attrs _ childNodes name [c]) by done.
  cbn [tokenize step N.eqb Pos.eqb app].
  by rewrite (tokenize_value attrs (c :: name) _ childNodes value []).
Qed.

Lemma tokenize_attributes rest childNodes new : ∀ attrs,
  forallb (λ a, plainName a.1 && plain a.2) new = true →
  tokenize (AfterAttributeValueQuoted attrs) childNodes
    (concat (serializeAttribute <$> new) ++ rest)
  = tokenize (AfterAttributeValueQuoted
                (foldl (λ acc a, addAttribute acc a.1 a.2) attrs new)) childNodes rest.
Proof.
  induction new as [|a new IH]; intros attrs Hnew; [done|].
  apply andb_true_iff in Hnew as [Ha Hnew].
  apply andb_true_iff in Ha as [Hn Hv].
  rewrite fmap_cons. cbn [concat foldl]. rewrite <- app_assoc.
  rewrite (tokenize_attribute _ attrs) by (done || constructor).
  by apply IH.
Qed.

Lemma addAttribute_new attrs name value :
  name ∉ attrs.*1 → addAttribute attrs name value = attrs ++ [(name, value)].
Proof. intros Hn. unfold addAttribute. by rewrite bool_decide_eq_false_2. Qed.

Lemma foldl_addAttribute new : ∀ attrs,
  NoDup (attrs.*1 ++ new.*1) →
  foldl (λ acc a, addAttribute acc a.1 a.2) attrs new = attrs ++ new.
Proof.
  induction new as [|[name value] new IH]; intros attrs Hnd.
  - by rewrite app_nil_r.
  - cbn [foldl fst snd]. rewrite fmap_cons in Hnd. cbn [fst] in Hnd.
    rewrite addAttribute_new.
    + rewrite IH.
      * by rewrite <- app_assoc.
      * rewrite fmap_app, <- app_assoc. done.
    + apply NoDup_app in Hnd as (_ & Hnd & _). intros Hin.
      apply (Hnd name Hin). by left.
Qed.

(** The attributes of a start tag, from behind the tag name on. *)
Lemma tokenize_start_tag rest childNodes attrs :
  forallb (λ a, plainName a.1 && plain a.2) attrs = true →
  ∃ st, opened st (foldl (λ acc a, addAttribute acc a.1 a.2) [] attrs)
        ∧ tokenize (TagName (lit "img")) childNodes
            (concat (serializeAttribute <$> attrs) ++ rest)
          = tokenize st childNodes rest.
Proof.
  intros Hattrs. destruct attrs as [|a attrs].
  - exists (TagName (lit "img")). split; [constructor|done].
  - eexists. split; [constructor|].
    apply andb_true_iff in Hattrs as [Ha Hattrs].
    apply andb_true_iff in Ha as [Hn Hv].
    rewrite fmap_cons. cbn [concat]. rewrite <- app_assoc.
    rewrite (tokenize_attribute _ []) by (done || constructor).
    by rewrite tokenize_attributes.
Qed.

(** The host reads the serialisation of an element as that element. *)
Lemma tokenize_serializeNode c rest childNodes :
  described c = true →
  tokenize Data childNodes (serializeNode c ++ rest)
  = tokenize Data (childNodes ++ [c]) rest.
Proof.
  destruct c as [attrs]. intros Hc.
  apply andb_true_iff in Hc as [Hattrs Hnd]. apply bool_decide_eq_true in Hnd.
  unfold serializeNode. rewrite <- !app_assoc.
  change (tokenize Data childNodes (lit "<img" ++ ?s))
    with (tokenize (TagName (lit "img")) childNodes s).
  destruct (tokenize_start_tag (lit ">" ++ rest) childNodes attrs Hattrs)
    as (st & Hst & ->).
  rewrite (foldl_addAttribute attrs []) in Hst by done.
  change (lit ">" ++ rest) with (62 :: rest). cbn [tokenize].
  by rewrite (opened_step st attrs 62 Hst).
Qed.

Lemma tokenize_serialize rest childNodes' : ∀ childNodes,
  forallb described childNodes' = true →
  tokenize Data childNodes (concat (serializeNode <$> childNodes') ++ rest)
  = tokenize Data (childNodes ++ childNodes') rest.
Proof.
  induction childNodes' as [|c childNodes' IH]; intros childNodes Hd.
  - by rewrite app_nil_r.
  - apply andb_true_iff in Hd as [Hc Hd].
    rewrite fmap_cons. cbn [concat]. rewrite <- app_assoc.
    rewrite tokenize_serializeNode by done. rewrite IH by done.
    by rewrite <- app_assoc.
Qed.

(** Reading back what has been written: the children are the same. *)
Lemma parse_serialize context childNodes content :
  flowContext context = true →
  serialize childNodes = Some content → parse context content = Some childNodes.
Proof.
  unfold serialize, parse. intros ->.
  destruct (forallb described childNodes) eqn:Hd; [|done].
  intros [= <-]. rewrite <- (app_nil_r (concat _)).
  by rewrite tokenize_serialize.
Qed.


End FragmentFacts.

Module PdfPagesFacts.
Import JsString Html Fragment PdfPages HtmlFacts FragmentFacts.










Section Pages.

(** A source, and the element that the host makes of the markup of each
    page. *)
Variable src : jsstring.
Variable element : Z → node.

Hypothesis template_element : ∀ page childNodes,
  tokenize Data childNodes (Pdf.template src page) = Some (childNodes ++ [element page]).
Hypothesis element_described : ∀ page, described (element page) = true.





End Pages.



End PdfPagesFacts.

Module PdfPagesClaims.
Import JsString Html Fragment PdfPages HtmlFacts FragmentFacts PdfPagesFacts.







(** The host's reading of the markup of the test suite: the serialisation
    of the image element of page 2 is the markup without the closing
    slash. *)
Example serialize_page_2 :
  parse (lit "DIV") (Pdf.template (lit "pdf-file.pdf") 2)
  = Some [image (lit "pdf-file.pdf") 2]
  ∧ serialize [image (lit "pdf-file.pdf") 2]
    = Some (lit "<img src=" ++ quot ++ lit "pdf-file.pdf" ++ quot
              ++ lit " style=" ++ quot ++ lit "-ro-source-page: 2" ++ quot
              ++ lit " class=" ++ quot ++ lit "embedded-pdf page-2" ++ quot ++ lit ">").
Proof. split; reflexivity. Qed.

End PdfPagesClaims.

(** ** The document tree *)

Module DomFacts.
Import Dom.

Lemma consistent_child d x p :
  consistent d → parentOf d !! x = Some p → x ∈ children d p.
Proof. intros [H1 _] Hx. by apply (map_Forall_lookup_1 _ _ _ _ H1 Hx). Qed.

Lemma consistent_parent d k p :
  consistent d → k ∈ children d p → parentOf d !! k = Some p.
Proof.
  intros [_ H2] Hk. unfold children in Hk.
  destruct (childNodesOf d !! p) as [ks|] eqn:Hp; simpl in Hk;
    [|by apply elem_of_nil in Hk].
  destruct (map_Forall_lookup_1 _ _ _ _ H2 Hp) as [_ Hall].
  rewrite Forall_forall in Hall. by apply Hall.
Qed.

Lemma consistent_NoDup d p : consistent d → NoDup (children d p).
Proof.
  intros [_ H2]. unfold children.
  destruct (childNodesOf d !! p) as [ks|] eqn:Hp; simpl; [|constructor].
  by destruct (map_Forall_lookup_1 _ _ _ _ H2 Hp).
Qed.

Lemma consistent_iff d :
  consistent d ↔
  (∀ y q, parentOf d !! y = Some q ↔ y ∈ children d q) ∧ (∀ q, NoDup (children d q)).
Proof.
  split.
  - intros Hc. split; [|intros q; by apply consistent_NoDup].
    intros y q. split; [by apply consistent_child|by apply consistent_parent].
  - intros [Hp Hnd]. split.
    + apply map_Forall_lookup_2. intros y q Hy. by apply Hp.
    + apply map_Forall_lookup_2. intros q ks Hq.
      assert (Hks : children d q = ks) by (unfold children; by rewrite Hq).
      split; [rewrite <- Hks; apply Hnd|].
      apply Forall_forall. intros k Hk. apply Hp. by rewrite Hks.
Qed.

(** *** Ancestors *)

(** The walk reports an ancestor only where there is one. *)
Lemma ancestor_walk_sound fuel d a : ∀ x,
  ancestor_walk fuel d a x = true → ancestor d a x.
Proof.
  induction fuel as [|fuel IH]; intros x; simpl;
    destruct (decide (a = x)) as [->|Hne]; try (intros _; by constructor); [done|].
  destruct (parentOf d !! x) as [p|] eqn:Hx; [|done].
  intros Hw. eapply ancestor_step; [done|]. by apply IH.
Qed.

Lemma not_ancestor_check d a x : ¬ ancestor d a x → inclusive_ancestor d a x = false.
Proof.
  intros Hn. destruct (inclusive_ancestor d a x) eqn:Hw; [|done].
  destruct Hn. by eapply ancestor_walk_sound.
Qed.

Lemma ancestor_root d a x : parentOf d !! x = None → ancestor d a x → a = x.
Proof. intros Hx Ha. destruct Ha as [|y p Hy _]; [done|congruence]. Qed.

(** *** Positions in a list of children *)

Lemma next_in_elem x l n : next_in x l = Some n → n ∈ l.
Proof.
  induction l as [|y l IH]; simpl; [done|].
  destruct (decide (y = x)).
  - destruct l; simpl; [done|]. intros [= ->]. right. by left.
  - intros ?. right. by apply IH.
Qed.

Lemma next_in_ne x l : NoDup l → next_in x l ≠ Some x.
Proof.
  induction 1 as [|y l Hy Hnd IH]; simpl; [done|].
  destruct (decide (y = x)) as [->|]; [|done].
  destruct l as [|z l]; simpl; [done|]. intros [= ->]. apply Hy. by left.
Qed.

Lemma next_in_last x l : x ∉ l → next_in x (l ++ [x]) = None.
Proof.
  induction l as [|y l IH]; simpl; intros Hx.
  - by rewrite decide_True.
  - apply not_elem_of_cons in Hx as [Hne Hx]. rewrite decide_False by done. by apply IH.
Qed.

Lemma next_in_place_before x r l :
  x ∉ l → r ∈ l → next_in x (place_before r x l) = Some r.
Proof.
  induction l as [|y l IH]; simpl; intros Hx Hr; [by apply elem_of_nil in Hr|].
  apply not_elem_of_cons in Hx as [Hne Hx].
  destruct (decide (y = r)) as [->|Hyr]; simpl.
  - by rewrite decide_True.
  - rewrite decide_False by done. apply IH; [done|].
    apply elem_of_cons in Hr as [->|]; done.
Qed.

Lemma next_in_insert_at x ref l :
  x ∉ l → (∀ n, ref = Some n → n ∈ l) → next_in x (insert_at ref x l) = ref.
Proof.
  intros Hx Hin. destruct ref as [r|]; simpl.
  - apply next_in_place_before; [done|]. by apply Hin.
  - by apply next_in_last.
Qed.

(** In a consistent tree the next sibling of a node is another node. *)
Lemma nextSibling_ne d x : consistent d → nextSibling d x ≠ Some x.
Proof.
  intros Hc. unfold nextSibling. destruct (parentOf d !! x); [|done].
  by apply next_in_ne, consistent_NoDup.
Qed.

(** *** Removal *)

Lemma detach_parent x d : parentOf (detach x d) !! x = None.
Proof.
  unfold detach. destruct (parentOf d !! x) eqn:Hx; [|done].
  simpl. apply lookup_delete_eq.
Qed.

Lemma detach_not_child x d q : consistent d → x ∉ children (detach x d) q.
Proof.
  intros Hc. unfold detach. destruct (parentOf d !! x) as [p|] eqn:Hx.
  - unfold children. simpl. destruct (decide (q = p)) as [->|Hq].
    + rewrite lookup_insert_eq. simpl.
      intros [Hne _]%list_elem_of_filter. done.
    + rewrite lookup_insert_ne by done.
      intros Hin. pose proof (consistent_parent d x q Hc Hin). congruence.
  - intros Hin. pose proof (consistent_parent d x q Hc Hin). congruence.
Qed.

Lemma detach_child x d n p :
  consistent d → parentOf d !! n = Some p → n ≠ x → n ∈ children (detach x d) p.
Proof.
  intros Hc Hn Hne. pose proof (consistent_child d n p Hc Hn) as Hin.
  unfold detach. destruct (parentOf d !! x) as [p0|] eqn:Hx; [|done].
  unfold children. simpl. destruct (decide (p = p0)) as [->|Hp].
  - rewrite lookup_insert_eq. simpl. by apply list_elem_of_filter.
  - by rewrite lookup_insert_ne.
Qed.

Lemma detach_parent_ne x d y : y ≠ x → parentOf (detach x d) !! y = parentOf d !! y.
Proof.
  intros Hne. unfold detach. destruct (parentOf d !! x); [|done].
  simpl. by rewrite lookup_delete_ne.
Qed.

Lemma filter_ne_id (x : node) (l : list node) : x ∉ l → filter (λ y, y ≠ x) l = l.
Proof.
  induction l as [|y l IH]; [done|]. intros [Hne Hl]%not_elem_of_cons.
  rewrite filter_cons_True by done. by rewrite IH.
Qed.

Lemma detach_children x d q :
  consistent d → children (detach x d) q = filter (λ y, y ≠ x) (children d q).
Proof.
  intros Hc.
  assert (Hother : ∀ p, parentOf d !! x ≠ Some p → x ∉ children d p).
  { intros p Hp Hin. apply Hp. by apply consistent_parent. }
  unfold detach. destruct (parentOf d !! x) as [p|] eqn:Hx.
  - unfold children at 1. simpl. destruct (decide (q = p)) as [->|Hq].
    + by rewrite lookup_insert_eq.
    + rewrite lookup_insert_ne by done. fold (children d q).
      rewrite filter_ne_id; [done|]. apply Hother. congruence.
  - rewrite filter_ne_id; [done|]. by apply Hother.
Qed.

(** Removal keeps the tree consistent. *)
Lemma detach_consistent x d : consistent d → consistent (detach x d).
Proof.
  intros Hc. pose proof (proj1 (consistent_iff d) Hc) as [Hp Hnd].
  apply consistent_iff. split.
  - intros y q. rewrite detach_children, list_elem_of_filter by done.
    destruct (decide (y = x)) as [->|Hne].
    + rewrite detach_parent. split; [done|]. by intros [? _].
    + rewrite detach_parent_ne by done. rewrite Hp. tauto.
  - intros q. rewrite detach_children by done. by apply NoDup_filter.
Qed.

Lemma ancestor_detach x d a y : ancestor (detach x d) a y → ancestor d a y.
Proof.
  induction 1 as [|y p Hy _ IH]; [constructor|].
  destruct (decide (y = x)) as [->|Hne]; [by rewrite detach_parent in Hy|].
  rewrite detach_parent_ne in Hy by done. by eapply ancestor_step.
Qed.

(** *** Insertion *)

Lemma elem_of_place_before r x (l : list node) y :
  y ∈ place_before r x l ↔ y = x ∨ y ∈ l.
Proof.
  induction l as [|z l IH]; simpl.
  - rewrite list_elem_of_singleton, elem_of_nil. tauto.
  - destruct (decide (z = r)); rewrite !elem_of_cons; [tauto|]. rewrite IH. tauto.
Qed.

Lemma elem_of_insert_at ref x (l : list node) y :
  y ∈ insert_at ref x l ↔ y = x ∨ y ∈ l.
Proof.
  destruct ref as [r|]; simpl; [apply elem_of_place_before|].
  rewrite elem_of_app, list_elem_of_singleton. tauto.
Qed.

Lemma NoDup_insert_at ref x (l : list node) :
  x ∉ l → NoDup l → NoDup (insert_at ref x l).
Proof.
  intros Hx Hnd. destruct ref as [r|]; simpl.
  - induction Hnd as [|z l Hz Hnd IH]; simpl; [apply NoDup_singleton|].
    apply not_elem_of_cons in Hx as [Hne Hx].
    destruct (decide (z = r)).
    + constructor; [|by constructor]. rewrite elem_of_cons. tauto.
    + constructor; [|by apply IH]. rewrite elem_of_place_before. intros [->|]; done.
  - apply NoDup_app. split; [done|]. split; [|apply NoDup_singleton].
    intros y Hy ->%list_elem_of_singleton. done.
Qed.

(** Putting a node back in front of the sibling it had restores the list. *)
Lemma insert_at_next_in x (l : list node) :
  NoDup l → x ∈ l → insert_at (next_in x l) x (filter (λ y, y ≠ x) l) = l.
Proof.
  induction 1 as [|y l Hy Hnd IH]; [by intros ?%elem_of_nil|].
  intros Hx. simpl. destruct (decide (y = x)) as [->|Hne].
  - rewrite filter_cons_False by (intros ?; done).
    rewrite filter_ne_id by done.
    destruct l as [|z l]; simpl; [done|]. by rewrite decide_True.
  - rewrite filter_cons_True by done.
    apply elem_of_cons in Hx as [->|Hx]; [done|].
    specialize (IH Hx). destruct (next_in x l) as [r|] eqn:Hr; simpl in *.
    + assert (y ≠ r) by (intros ->; apply Hy; by eapply next_in_elem).
      rewrite decide_False by done. by rewrite IH.
    + by rewrite IH.
Qed.


(** [insertBefore] succeeds where the host's checks pass, and puts the
    node under the parent in front of the reference child. *)
Lemma insertBefore_spec d x ref p :
  consistent d →
  inclusive_ancestor d x p = false →
  (∀ n, ref = Some n → parentOf d !! n = Some p) →
  ref ≠ Some x →
  ∃ d', insertBefore x ref p d = (Normal x, d')
        ∧ parentOf d' !! x = Some p
        ∧ nextSibling d' x = ref.
Proof.
  intros Hc Hanc Href Hne. unfold insertBefore. rewrite Hanc.
  assert (Hforeign : foreign_reference d ref p = false).
  { destruct ref as [n|]; simpl; [|done].
    apply bool_decide_eq_false. intros Hn. apply Hn. by apply Href. }
  rewrite Hforeign, decide_False by done.
  eexists. split; [done|]. split; [apply lookup_insert_eq|].
  unfold nextSibling. simpl. rewrite lookup_insert_eq.
  unfold children at 1. simpl. rewrite lookup_insert_eq. simpl.
  apply next_in_insert_at; [by apply detach_not_child|].
  intros n ->. apply detach_child; [done|by apply Href|]. by intros ->.
Qed.

(** A successful insertion keeps the tree consistent. *)
Lemma insertBefore_consistent d x ref p y d' :
  consistent d → insertBefore x ref p d = (Normal y, d') → consistent d'.
Proof.
  intros Hc. unfold insertBefore.
  destruct (inclusive_ancestor d x p); [done|].
  destruct (foreign_reference d ref p); [done|].
  intros [= _ <-].
  pose proof (detach_consistent x d Hc) as Hc1.
  pose proof (proj1 (consistent_iff _) Hc1) as [Hp Hnd].
  pose proof (detach_not_child x d) as Hx.
  set (ref' := if decide (ref = Some x) then nextSibling d x else ref).
  apply consistent_iff.
  assert (Hch : ∀ q,
    children (Build_dom (<[x := p]> (parentOf (detach x d)))
                (<[p := insert_at ref' x (children (detach x d) p)]>
                   (childNodesOf (detach x d)))
                (attrs (detach x d)) (rects (detach x d))) q
    = if decide (q = p) then insert_at ref' x (children (detach x d) p)
      else children (detach x d) q).
  { intros q. unfold children at 1. simpl. destruct (decide (q = p)) as [->|Hq].
    - by rewrite lookup_insert_eq.
    - by rewrite lookup_insert_ne. }
  split.
  - intros z q. rewrite Hch. simpl.
    destruct (decide (z = x)) as [->|Hz].
    + rewrite lookup_insert_eq. destruct (decide (q = p)) as [->|Hq].
      * rewrite elem_of_insert_at. tauto.
      * split; [congruence|]. intros Hin. by apply Hx in Hin.
    + rewrite lookup_insert_ne by done. rewrite Hp.
      destruct (decide (q = p)) as [->|Hq]; [|done].
      rewrite elem_of_insert_at. tauto.
  - intros q. rewrite Hch. destruct (decide (q = p)); [|done].
    apply NoDup_insert_at; [by apply Hx|done].
Qed.

(** Removing a node and inserting it in front of the sibling it had gives
    back the tree. *)
Lemma detach_insertBefore d x p :
  consistent d →
  parentOf d !! x = Some p →
  ¬ ancestor d x p →
  ∃ d', insertBefore x (nextSibling d x) p (detach x d) = (Normal x, d')
        ∧ parentOf d' = parentOf d
        ∧ childNodesOf d' = childNodesOf d.
Proof.
  intros Hc Hp Hanc.
  pose proof (consistent_child d x p Hc Hp) as Hin.
  assert (Hks : childNodesOf d !! p = Some (children d p)).
  { unfold children in *. destruct (childNodesOf d !! p); [done|].
    by apply elem_of_nil in Hin. }
  destruct (insertBefore_spec (detach x d) x (nextSibling d x) p) as (d' & Hins & _).
  - by apply detach_consistent.
  - apply not_ancestor_check. intros Ha. by apply Hanc, (ancestor_detach x).
  - intros n Hn. rewrite detach_parent_ne.
    + apply consistent_parent; [done|]. unfold nextSibling in Hn. rewrite Hp in Hn.
      by eapply next_in_elem.
    + intros ->. by apply (nextSibling_ne d x).
  - by apply nextSibling_ne.
  - exists d'. split; [done|]. revert Hins. unfold insertBefore.
    destruct (inclusive_ancestor _ x p); [done|].
    destruct (foreign_reference _ _ p); [done|].
    rewrite decide_False by by apply nextSibling_ne.
    intros [= <-]. simpl.
    assert (Hd : detach x (detach x d) = detach x d).
    { unfold detach at 1. by rewrite detach_parent. }
    rewrite Hd. split.
    + unfold detach. rewrite Hp. simpl.
      rewrite insert_delete_eq. by apply insert_id.
    + rewrite detach_children by done.
      unfold detach. rewrite Hp. simpl. rewrite insert_insert_eq.
      unfold nextSibling. rewrite Hp.
      rewrite insert_at_next_in; [by apply insert_id|by apply consistent_NoDup|done].
Qed.

(** The tree that an insertion leaves depends on the tree alone. *)
Lemma ancestor_walk_tree fuel d d2 a :
  parentOf d2 = parentOf d → ∀ x, ancestor_walk fuel d2 a x = ancestor_walk fuel d a x.
Proof.
  intros Hp. induction fuel as [|fuel IH]; intros x; simpl; [done|].
  rewrite Hp. destruct (decide (a = x)); [done|].
  destruct (parentOf d !! x); [apply IH|done].
Qed.

Lemma insertBefore_tree d d2 x ref p :
  parentOf d2 = parentOf d →
  childNodesOf d2 = childNodesOf d →
  fst (insertBefore x ref p d2) = fst (insertBefore x ref p d)
  ∧ (∀ y, fst (insertBefore x ref p d) = Normal y →
       parentOf (snd (insertBefore x ref p d2)) = parentOf (snd (insertBefore x ref p d))
       ∧ childNodesOf (snd (insertBefore x ref p d2))
         = childNodesOf (snd (insertBefore x ref p d))).
Proof.
  intros Hp Hk. unfold insertBefore, inclusive_ancestor.
  rewrite (ancestor_walk_tree _ d d2) by done. rewrite Hp.
  destruct (ancestor_walk _ d x p); [by split|].
  assert (Hf : foreign_reference d2 ref p = foreign_reference d ref p).
  { unfold foreign_reference. by rewrite Hp. }
  rewrite Hf. destruct (foreign_reference d ref p); [by split|].
  split; [done|]. intros _ _. simpl.
  unfold nextSibling, detach, children. rewrite Hp, Hk.
  destruct (parentOf d !! x); simpl; by rewrite ?Hp, ?Hk.
Qed.

Lemma removeChild_spec d x p :
  parentOf d !! x = Some p →
  removeChild x p d = (Normal x, detach x d).
Proof. intros Hx. unfold removeChild. by rewrite decide_True. Qed.

End DomFacts.

(** ** renderOffscreen *)

Module OffscreenFacts.
Import Dom Offscreen DomFacts.

Section Host.
Context {selector : Type} (querySelector : selector → dom → option node).

(** The call, step by step: the callback runs on [atCallback x d], then
    the element is inserted again, whatever the callback completed
    with. *)
Lemma renderOffscreen_unfold sel renderFunction d x p :
  querySelector sel d = Some x →
  parentOf d !! x = Some p →
  renderOffscreen querySelector sel renderFunction d
  = let '(r, d2) :=
      renderFunction x (default (Rect 0 0) (rects d !! x))
        (rendered (Some p) x (nextSibling d x)) (atCallback x d) in
    match insertBefore x (nextSibling d x) p d2 with
    | (Normal _, d3) => (outcome r, d3)
    | (Throw e, d3) => (Throw e, d3)
    end.
Proof.
  intros Hq Hp.
  unfold renderOffscreen, mbind, M_bind, mret, M_ret, getBoundingClientRect, attr,
    get_parentNode, get_nextSibling, parentNode, try_finally, on.
  rewrite Hq. cbn [parentOf childNodesOf attrs rects]. rewrite Hp.
  rewrite (removeChild_spec _ x p) by done.
  unfold atCallback, stamped, nextSibling.
  cbn [parentOf childNodesOf attrs rects]. rewrite Hp.
  destruct (renderFunction _ _ _ _) as [r d2].
  destruct (insertBefore _ _ _ d2) as [[y|e] d3]; by destruct r.
Qed.

Lemma atCallback_parent x d : parentOf (atCallback x d) !! x = None.
Proof. apply detach_parent. Qed.

Lemma atCallback_tree x d :
  parentOf (atCallback x d) = parentOf (detach x d)
  ∧ childNodesOf (atCallback x d) = childNodesOf (detach x d).
Proof.
  unfold atCallback, stamped, detach, children. simpl.
  by destruct (parentOf d !! x).
Qed.

(** A callback that leaves the tree as it found it gets the tree of
    before the call back: every parent and every list of children. *)
Lemma renderOffscreen_tree sel renderFunction d x p r d2 :
  querySelector sel d = Some x →
  consistent d →
  parentOf d !! x = Some p →
  ¬ ancestor d x p →
  renderFunction x (default (Rect 0 0) (rects d !! x))
    (rendered (Some p) x (nextSibling d x)) (atCallback x d) = (r, d2) →
  parentOf d2 = parentOf (atCallback x d) →
  childNodesOf d2 = childNodesOf (atCallback x d) →
  ∃ d3, renderOffscreen querySelector sel renderFunction d = (outcome r, d3)
        ∧ parentOf d3 = parentOf d
        ∧ childNodesOf d3 = childNodesOf d.
Proof.
  intros Hq Hc Hp Hanc Hrun Hp2 Hk2.
  destruct (atCallback_tree x d) as [Hpa Hka].
  destruct (detach_insertBefore d x p Hc Hp Hanc) as (d' & Hins & Hp' & Hk').
  destruct (insertBefore_tree (detach x d) d2 x (nextSibling d x) p)
    as [Hfst Hsnd]; [congruence..|].
  rewrite Hins in Hfst, Hsnd. simpl in *.
  destruct (Hsnd x eq_refl) as [Hp3 Hk3].
  rewrite (renderOffscreen_unfold sel _ d x p Hq Hp), Hrun.
  destruct (insertBefore x (nextSibling d x) p d2) as [c d3]. simpl in *. subst c.
  exists d3. split; [done|]. split; congruence.
Qed.

End Host.

Lemma rendered_unfold p x next task d d1 :
  insertBefore x next p d = (Normal x, d1) →
  rendered (Some p) x next task d
  = let '(r, d2) := task d1 in
    match removeChild x p d2 with
    | (Normal _, d3) => (r, d3)
    | (Throw e, d3) => (Throw e, d3)
    end.
Proof.
  intros Hins. unfold rendered, mbind, M_bind, try_finally, on. by rewrite Hins.
Qed.

End OffscreenFacts.

Module OffscreenClaims.
Import Dom Offscreen DomFacts OffscreenFacts.

(** C1, as the code has it.  The element is removed from its parent before
    [renderFunction] is invoked.  When [renderFunction] has completed,
    normally or with an error, in a document in which the recorded next
    sibling, if there was one, is still a child of the recorded parent, and
    the element is neither that parent nor one of its ancestors, the
    element is inserted again under its parent in front of that sibling (at
    the end if there was none), and [renderOffscreen] completes as
    [renderFunction] did: an error is passed on as it is. *)
Theorem renderOffscreen_restores {selector : Type}
    (querySelector : selector → dom → option node) sel renderFunction d x p r d2 :
  querySelector sel d = Some x →
  consistent d →
  parentOf d !! x = Some p →
  renderFunction x (default (Rect 0 0) (rects d !! x))
    (rendered (Some p) x (nextSibling d x)) (atCallback x d) = (r, d2) →
  consistent d2 →
  ¬ ancestor d2 x p →
  (∀ n, nextSibling d x = Some n → parentOf d2 !! n = Some p) →
  parentOf (atCallback x d) !! x = None
  ∧ restored querySelector sel renderFunction d x p r.
Proof.
  intros Hq Hc Hp Hrun Hc2 Hanc Hnext. split; [apply atCallback_parent|].
  destruct (insertBefore_spec d2 x (nextSibling d x) p Hc2
              (not_ancestor_check _ _ _ Hanc) Hnext)
    as (d3 & Hins & Hp3 & Hn3); [by apply nextSibling_ne|].
  exists d3. rewrite (renderOffscreen_unfold querySelector sel _ d x p Hq Hp).
  by rewrite Hrun, Hins.
Qed.

Lemma renderOffscreen_restores_witness :
  consistent Fixtures.page
  ∧ parentOf (atCallback 1 Fixtures.page) !! 1 = None
  ∧ restored Fixtures.svg tt Fixtures.throwing Fixtures.page 1 0
      (Throw (Thrown (Number 7))).
Proof.
  assert (Hc : consistent Fixtures.page).
  { refine (bool_decide_unpack _ _). vm_compute. exact I. }
  split; [exact Hc|].
  apply (renderOffscreen_restores Fixtures.svg tt Fixtures.throwing Fixtures.page 1 0
           (Throw (Thrown (Number 7))) (atCallback 1 Fixtures.page)).
  - reflexivity.
  - exact Hc.
  - reflexivity.
  - vm_compute. reflexivity.
  - refine (bool_decide_unpack _ _). vm_compute. exact I.
  - intros Ha. apply ancestor_root in Ha; [discriminate Ha|reflexivity].
  - intros n. vm_compute. intros [= <-]. reflexivity.
Defined.

(** C1, as the specification states it, fails: a callback that returns
    normally after taking the recorded next sibling out of the parent
    makes the final [insertBefore] throw [NotFoundError]; the element stays
    without parent. *)
Lemma renderOffscreen_sibling_removed :
  Fixtures.svg tt Fixtures.page = Some 1
  ∧ consistent Fixtures.page
  ∧ parentOf Fixtures.page !! 1 = Some 0
  ∧ fst (Fixtures.removing_sibling 1 (Rect 200 100)
           (rendered (Some 0) 1 (nextSibling Fixtures.page 1))
           (atCallback 1 Fixtures.page)) = Normal Undefined
  ∧ fst (renderOffscreen Fixtures.svg tt Fixtures.removing_sibling Fixtures.page)
    = Throw NotFoundError
  ∧ parentOf (snd (renderOffscreen Fixtures.svg tt Fixtures.removing_sibling
                     Fixtures.page)) !! 1 = None
  ∧ ¬ restored Fixtures.svg tt Fixtures.removing_sibling Fixtures.page 1 0
        (Normal Undefined).
Proof.
  split; [reflexivity|]. split; [refine (bool_decide_unpack _ _); vm_compute; exact I|].
  split; [reflexivity|]. split; [reflexivity|]. split; [reflexivity|].
  split; [reflexivity|].
  intros (d3 & Hrun & _). vm_compute in Hrun. discriminate Hrun.
Qed.

(** C2, as the code has it.  A call of the run-attached function in a
    document where the insertion is possible puts the element under its
    parent in front of the recorded sibling and runs the task there.  When
    the task has completed, with a value or with an error, in a document
    in which the element is still a child of that parent, the element is
    removed again and the call completes as the task did. *)
Theorem rendered_detaches_again d0 x p task d r d2 :
  consistent d0 →
  parentOf d0 !! x = Some p →
  consistent d →
  ¬ ancestor d x p →
  (∀ n, nextSibling d0 x = Some n → parentOf d !! n = Some p) →
  task (snd (insertBefore x (nextSibling d0 x) p d)) = (r, d2) →
  parentOf d2 !! x = Some p →
  insertBefore x (nextSibling d0 x) p d
  = (Normal x, snd (insertBefore x (nextSibling d0 x) p d))
  ∧ parentOf (snd (insertBefore x (nextSibling d0 x) p d)) !! x = Some p
  ∧ nextSibling (snd (insertBefore x (nextSibling d0 x) p d)) x = nextSibling d0 x
  ∧ detachedAgain p x (nextSibling d0 x) task d r.
Proof.
  intros Hc0 Hp0 Hc Hanc Hnext Hrun Hp2.
  destruct (insertBefore_spec d x (nextSibling d0 x) p Hc
              (not_ancestor_check _ _ _ Hanc) Hnext)
    as (d1 & Hins & Hp1 & Hn1); [by apply nextSibling_ne|].
  rewrite Hins in *. simpl in *. repeat split; [done..|].
  exists (detach x d2). split; [|apply detach_parent].
  rewrite (rendered_unfold p x _ task d d1 Hins), Hrun.
  by rewrite (removeChild_spec d2 x p Hp2).
Qed.

Lemma rendered_detaches_again_witness :
  consistent Fixtures.page
  ∧ insertBefore 1 (nextSibling Fixtures.page 1) 0 (atCallback 1 Fixtures.page)
    = (Normal 1, snd (insertBefore 1 (nextSibling Fixtures.page 1) 0
                        (atCallback 1 Fixtures.page)))
  ∧ parentOf (snd (insertBefore 1 (nextSibling Fixtures.page 1) 0
                     (atCallback 1 Fixtures.page))) !! 1 = Some 0
  ∧ nextSibling (snd (insertBefore 1 (nextSibling Fixtures.page 1) 0
                        (atCallback 1 Fixtures.page))) 1
    = nextSibling Fixtures.page 1
  ∧ detachedAgain 0 1 (nextSibling Fixtures.page 1) Fixtures.measuring_task
      (atCallback 1 Fixtures.page) (Normal (Number 42)).
Proof.
  assert (Hc : consistent Fixtures.page).
  { refine (bool_decide_unpack _ _). vm_compute. exact I. }
  split; [exact Hc|].
  apply (rendered_detaches_again Fixtures.page 1 0 Fixtures.measuring_task
           (atCallback 1 Fixtures.page) (Normal (Number 42))
           (snd (insertBefore 1 (nextSibling Fixtures.page 1) 0
                   (atCallback 1 Fixtures.page)))).
  - exact Hc.
  - reflexivity.
  - refine (bool_decide_unpack _ _). vm_compute. exact I.
  - intros Ha. apply ancestor_root in Ha; [discriminate Ha|reflexivity].
  - intros n. vm_compute. intros [= <-]. reflexivity.
  - reflexivity.
  - vm_compute. reflexivity.
Defined.

(** C2, as the specification states it, fails: a task that calls the
    run-attached function itself returns 42 with the element already
    removed, so the outer [removeChild] throws [NotFoundError] and the
    value of the task is lost. *)
Lemma rendered_nested_throws :
  consistent (atCallback 1 Fixtures.page)
  ∧ fst (insertBefore 1 (Some 2) 0 (atCallback 1 Fixtures.page)) = Normal 1
  ∧ fst (Fixtures.nested_task
           (snd (insertBefore 1 (Some 2) 0 (atCallback 1 Fixtures.page))))
    = Normal (Number 42)
  ∧ fst (rendered (Some 0) 1 (Some 2) Fixtures.nested_task
           (atCallback 1 Fixtures.page)) = Throw NotFoundError
  ∧ ¬ detachedAgain 0 1 (Some 2) Fixtures.nested_task
        (atCallback 1 Fixtures.page) (Normal (Number 42)).
Proof.
  split; [refine (bool_decide_unpack _ _); vm_compute; exact I|].
  split; [reflexivity|]. split; [reflexivity|]. split; [reflexivity|].
  intros (d3 & Hrun & _). vm_compute in Hrun. discriminate Hrun.
Qed.

(** The run of the test suite: the task returns 42 to the callback, and
    the call leaves the tree as it was. *)
Example renderOffscreen_measuring :
  fst (rendered (Some 0) 1 (Some 2) Fixtures.measuring_task (atCallback 1 Fixtures.page))
  = Normal (Number 42)
  ∧ fst (renderOffscreen Fixtures.svg tt
           (λ svg rect rendered, rendered Fixtures.measuring_task) Fixtures.page)
    = Normal Undefined
  ∧ parentOf (snd (renderOffscreen Fixtures.svg tt
                     (λ svg rect rendered, rendered Fixtures.measuring_task)
                     Fixtures.page))
    = parentOf Fixtures.page
  ∧ childNodesOf (snd (renderOffscreen Fixtures.svg tt
                         (λ svg rect rendered, rendered Fixtures.measuring_task)
                         Fixtures.page))
    = childNodesOf Fixtures.page.
Proof. repeat split; vm_compute; reflexivity. Qed.

End OffscreenClaims.


(** * Further properties *)

(** ** Generated identifiers *)

Module IdFacts.
Import JsString Html Toc Notions JsStringFacts.

Lemma numberToString_nonempty n : numberToString n ≠ [].
Proof.
  unfold numberToString, NilZero.string_of_int, NilZero.string_of_uint.
  destruct (Z.to_int n) as [d|d]; [|done]. by destruct d.
Qed.

Lemma digits_of_uint d : Forall isDigit (lit (NilEmpty.string_of_uint d)).
Proof. induction d; simpl; constructor; try done; unfold isDigit; simpl; lia. Qed.

Lemma numberToString_digits k : Forall isDigit (numberToString (Z.of_nat k)).
Proof.
  unfold numberToString, NilZero.string_of_int, NilZero.string_of_uint.
  destruct (Z.of_nat k) as [|p|p] eqn:Hk; simpl.
  - repeat constructor; unfold isDigit; simpl; lia.
  - destruct (Pos.to_uint p) eqn:Hd; try (rewrite <- Hd; apply digits_of_uint).
    repeat constructor; unfold isDigit; simpl; lia.
  - lia.
Qed.

Lemma isDigit_word c : isDigit c → isWordChar c = true ∧ c ≠ hyphen.
Proof.
  unfold isDigit, isWordChar, between, hyphen. intros [H1 H2]. split; [|lia].
  apply N.leb_le in H1, H2. by rewrite H1, H2.
Qed.

Lemma hyphen_nonword : isWordChar hyphen = false.
Proof. reflexivity. Qed.

Lemma skipNonWord_head s :
  skipNonWord s = [] ∨ ∃ c t, skipNonWord s = c :: t ∧ isWordChar c = true.
Proof.
  induction s as [|c s IH]; simpl; [by left|].
  destruct (isWordChar c) eqn:Hc; [right; eauto|done].
Qed.

Lemma replaceNonWord_cons_word c t :
  isWordChar c = true → replaceNonWord (c :: t) = c :: replaceNonWord t.
Proof. intros Hc. simp replaceNonWord. by rewrite Hc. Qed.

(** The scan writes word characters and hyphens only. *)
Lemma replaceNonWord_chars s :
  Forall (λ c, isWordChar c = true ∨ c = hyphen) (replaceNonWord s).
Proof.
  funelim (replaceNonWord s); simp replaceNonWord; [constructor|..].
  - constructor; [by left|done].
  - constructor; [by right|done].
Qed.

Lemma singleHyphens_cons a t :
  singleHyphens (a :: t) = true ↔
  (a ≠ hyphen ∨ head t ≠ Some hyphen) ∧ singleHyphens t = true.
Proof.
  simpl. rewrite andb_true_iff, negb_true_iff, andb_false_iff. f_equiv.
  destruct t as [|b t]; simpl.
  - split; [intros _; by right|intros _; by right].
  - rewrite !N.eqb_neq. split; intros [?|?]; [by left|right; congruence|by left|].
    right. congruence.
Qed.

(** The scan never writes two hyphens in a row. *)
Lemma replaceNonWord_singleHyphens s : singleHyphens (replaceNonWord s) = true.
Proof.
  funelim (replaceNonWord s); simp replaceNonWord; [done|..].
  - apply singleHyphens_cons. split; [|done].
    left. intros ->. by rewrite hyphen_nonword in Heq.
  - apply singleHyphens_cons. split; [|done].
    right. destruct (skipNonWord_head s') as [->|(c' & t & -> & Hc')].
    + by simp replaceNonWord.
    + rewrite replaceNonWord_cons_word by done. simpl. intros [= ->].
      by rewrite hyphen_nonword in Hc'.
Qed.

Lemma singleHyphens_app s t :
  singleHyphens s = true → Forall (λ c, c ≠ hyphen) t → singleHyphens (s ++ t) = true.
Proof.
  intros Hs Ht. induction s as [|a s IH].
  - simpl. induction Ht as [|b t Hb Ht IHt]; [done|].
    apply singleHyphens_cons. split; [by left|done].
  - apply singleHyphens_cons in Hs as [Ha Hs].
    change ((a :: s) ++ t) with (a :: (s ++ t)). apply singleHyphens_cons.
    split; [|by apply IH]. destruct Ha as [Ha|Ha]; [by left|]. right.
    destruct s as [|b s]; simpl in *; [|done].
    destruct Ht as [|b t Hb Ht]; simpl; [done|]. congruence.
Qed.

End IdFacts.

(** ** renderToc: what it changes and what it leaves *)

Module TocMore.
Import JsString Html Toc Notions JsStringFacts HtmlFacts TocFacts IdFacts.

Lemma set_innerHTML_same e : set_innerHTML (innerHTML e) e = e.
Proof. by destruct e. Qed.

Lemma get_id_nonempty e :
  get_id e ≠ [] → ∃ i, attributes e !! "id"%string = Some i ∧ i ≠ [].
Proof.
  unfold get_id. destruct (attributes e !! "id"%string) as [i|]; simpl; [eauto|done].
Qed.

Lemma idFor_nonempty e index : idFor e index ≠ [].
Proof.
  unfold idFor. destruct (get_id e) as [|c i] eqn:Hid; simpl; [|done].
  intros [_ H]%app_eq_nil. by apply numberToString_nonempty in H.
Qed.

(** X2.  When no element passes the heading selector and the filter, the
    call completes normally and the whole document, the content of the
    target included, is as before. *)
Theorem renderToc_nothing_to_list target sel d tocList :
  querySelector d target = Some tocList →
  headingRefs d sel = [] →
  renderToc target sel d = (Normal Undefined, d).
Proof.
  intros Htoc Hnone. unfold renderToc. rewrite Htoc.
  fold (headingRefs d sel). rewrite Hnone. simpl. f_equal.
  destruct (querySelector_elem _ _ _ Htoc) as (t & Ht & _).
  rewrite (list_lookup_total_correct _ _ _ Ht), set_innerHTML_same.
  by apply list_insert_id.
Qed.

Lemma renderToc_nothing_to_list_witness :
  renderToc Fixtures.toc headingSelector_default no_headings
  = (Normal Undefined, no_headings).
Proof.
  apply (renderToc_nothing_to_list Fixtures.toc headingSelector_default no_headings 0);
    reflexivity.
Defined.

(** X3.  A call writes no attribute but [id], and that on listed headings
    only: every element keeps every attribute other than [id]; an element
    that is not listed keeps all its attributes; and so does an element
    whose identifier is not empty. *)
Theorem renderToc_frame target sel d tocList :
  querySelector d target = Some tocList →
  ∃ d', renderToc target sel d = (Normal Undefined, d')
    ∧ ∀ j, (∀ name, name ≠ "id"%string →
              getAttribute (d' !!! j) name = getAttribute (d !!! j) name)
           ∧ (j ∉ headingRefs d sel → attributes (d' !!! j) = attributes (d !!! j))
           ∧ (get_id (d !!! j) ≠ [] → attributes (d' !!! j) = attributes (d !!! j)).
Proof.
  intros Htoc.
  destruct (renderToc_run target sel d tocList Htoc)
    as (d' & Hrun & _ & _ & Hset & Hrest).
  exists d'. split; [done|]. intros j. split; [|split].
  - intros name Hname. unfold getAttribute.
    destruct (decide (j ∈ headingRefs d sel)) as [Hin|Hin].
    + apply list_elem_of_lookup in Hin as [k Hk].
      by rewrite (Hset k j Hk), lookup_insert_ne.
    + by rewrite (Hrest j Hin).
  - apply Hrest.
  - intros (i & Hid & Hi')%get_id_nonempty.
    destruct (decide (j ∈ headingRefs d sel)) as [Hin|Hin]; [|by apply Hrest].
    apply list_elem_of_lookup in Hin as [k Hk].
    rewrite (Hset k j Hk), (idFor_kept _ _ i) by done. by apply insert_id.
Qed.

Lemma renderToc_frame_witness :
  ∃ d', renderToc Fixtures.toc headingSelector_default Fixtures.headings
        = (Normal Undefined, d')
    ∧ ∀ j, (∀ name, name ≠ "id"%string →
              getAttribute (d' !!! j) name = getAttribute (Fixtures.headings !!! j) name)
           ∧ (j ∉ headingRefs Fixtures.headings headingSelector_default →
                attributes (d' !!! j) = attributes (Fixtures.headings !!! j))
           ∧ (get_id (Fixtures.headings !!! j) ≠ [] →
                attributes (d' !!! j) = attributes (Fixtures.headings !!! j)).
Proof.
  apply (renderToc_frame Fixtures.toc headingSelector_default Fixtures.headings 0).
  reflexivity.
Defined.

(** X4.  After a call every heading that got an entry has an identifier
    that is not empty, so every link of the table has a target. *)
Theorem renderToc_ids_nonempty target sel d tocList k h :
  querySelector d target = Some tocList →
  headingRefs d sel !! k = Some h →
  ∃ d', renderToc target sel d = (Normal Undefined, d')
    ∧ get_id (d' !!! h) ≠ [].
Proof.
  intros Htoc Hk.
  destruct (renderToc_run target sel d tocList Htoc) as (d' & Hrun & _ & _ & Hset & _).
  exists d'. split; [done|]. unfold get_id.
  rewrite (Hset k h Hk), lookup_insert_eq. simpl. apply idFor_nonempty.
Qed.

Lemma renderToc_ids_nonempty_witness :
  ∃ d', renderToc Fixtures.toc headingSelector_default Fixtures.headings_ignore
        = (Normal Undefined, d')
    ∧ get_id (d' !!! 3) ≠ [].
Proof.
  apply (renderToc_ids_nonempty Fixtures.toc headingSelector_default
           Fixtures.headings_ignore 0 1 3); reflexivity.
Defined.

(** X5.  The identifier derived for a heading without identifier is made
    of word characters and hyphens only, has no two hyphens in a row, and
    ends with the decimal digits of the index: no quote, space or angle
    bracket of the heading's text reaches the [href] of the link. *)
Theorem idFor_derived_shape heading index :
  get_id heading = [] →
  Forall (λ c, isWordChar c = true ∨ c = hyphen) (idFor heading index)
  ∧ singleHyphens (idFor heading index) = true
  ∧ (∃ stem, idFor heading index = stem ++ numberToString (Z.of_nat index))
  ∧ numberToString (Z.of_nat index) ≠ []
  ∧ Forall isDigit (numberToString (Z.of_nat index)).
Proof.
  intros Hid. unfold idFor. rewrite Hid. simpl.
  pose proof (numberToString_digits index) as Hd.
  split; [|split].
  - apply Forall_app. split; [apply replaceNonWord_chars|].
    eapply Forall_impl; [exact Hd|]. intros c Hc. left. by apply isDigit_word.
  - apply singleHyphens_app; [apply replaceNonWord_singleHyphens|].
    eapply Forall_impl; [exact Hd|]. intros c Hc. by apply isDigit_word.
  - split; [by eexists|]. split; [apply numberToString_nonempty|done].
Qed.

Lemma idFor_derived_shape_witness :
  Forall (λ c, isWordChar c = true ∨ c = hyphen)
    (idFor (Fixtures.el "H1" [] " a -- <b> ") 12)
  ∧ singleHyphens (idFor (Fixtures.el "H1" [] " a -- <b> ") 12) = true
  ∧ (∃ stem, idFor (Fixtures.el "H1" [] " a -- <b> ") 12
              = stem ++ numberToString (Z.of_nat 12))
  ∧ numberToString (Z.of_nat 12) ≠ []
  ∧ Forall isDigit (numberToString (Z.of_nat 12)).
Proof.
  apply (idFor_derived_shape (Fixtures.el "H1" [] " a -- <b> ") 12). reflexivity.
Defined.

End TocMore.

(** ** Whitespace around the text of a heading *)

Module TrimFacts.
Import JsString Html Toc.

Lemma trimStart_space ws s :
  Forall (λ c, isWhiteSpace c = true) ws → trimStart (ws ++ s) = trimStart s.
Proof. induction 1 as [|c ws Hc _ IH]; simpl; [done|]. by rewrite Hc. Qed.

Lemma trimStart_all_space ws :
  Forall (λ c, isWhiteSpace c = true) ws → trimStart ws = [].
Proof. intros H. rewrite <- (app_nil_r ws). by rewrite trimStart_space. Qed.

Lemma trimStart_app s t :
  trimStart (s ++ t) = match trimStart s with [] => trimStart t | _ => trimStart s ++ t end.
Proof.
  induction s as [|c s IH]; simpl; [by destruct (trimStart t)|].
  destruct (isWhiteSpace c); [done|]. done.
Qed.

Lemma trimEnd_space s ws :
  Forall (λ c, isWhiteSpace c = true) ws → trimEnd (s ++ ws) = trimEnd s.
Proof.
  intros H. unfold trimEnd. rewrite rev_app_distr, trimStart_space; [done|].
  by apply Forall_rev.
Qed.

Lemma trimEnd_nil : trimEnd [] = [].
Proof. reflexivity. Qed.

(** [trim] does not see whitespace around its argument. *)
Lemma trim_space ws1 s ws2 :
  Forall (λ c, isWhiteSpace c = true) ws1 →
  Forall (λ c, isWhiteSpace c = true) ws2 →
  trim (ws1 ++ s ++ ws2) = trim s.
Proof.
  intros H1 H2. unfold trim. rewrite trimStart_space by done.
  rewrite trimStart_app. destruct (trimStart s) as [|c t] eqn:Hs.
  - by rewrite trimStart_all_space.
  - by rewrite trimEnd_space.
Qed.

(** X7.  Whitespace in front of and behind the text of a heading, such as
    the line breaks and the indentation of the markup, has no part in the
    derived identifier. *)
Theorem idFor_surrounding_space h1 h2 ws1 ws2 index :
  get_id h1 = [] →
  get_id h2 = [] →
  Forall (λ c, isWhiteSpace c = true) ws1 →
  Forall (λ c, isWhiteSpace c = true) ws2 →
  textContent h2 = ws1 ++ textContent h1 ++ ws2 →
  idFor h2 index = idFor h1 index.
Proof.
  intros Hid1 Hid2 H1 H2 Htext. unfold idFor.
  by rewrite Hid1, Hid2, Htext, trim_space.
Qed.

Lemma idFor_surrounding_space_witness :
  idFor (Element (lit "H1") ∅ ([10; 32; 32]%N ++ lit "1 Headline" ++ [9; 160; 10]%N) []) 0
  = idFor (Element (lit "H1") ∅ (lit "1 Headline") (lit "1 Headline")) 0.
Proof.
  apply (idFor_surrounding_space
           (Element (lit "H1") ∅ (lit "1 Headline") (lit "1 Headline"))
           (Element (lit "H1") ∅ ([10; 32; 32]%N ++ lit "1 Headline" ++ [9; 160; 10]%N) [])
           [10; 32; 32]%N [9; 160; 10]%N 0);
    try reflexivity; repeat constructor.
Defined.

End TrimFacts.

(** ** renderOffscreen: failures, the tree and the attributes *)

Module OffscreenMore.
Import Dom Offscreen Notions DomFacts OffscreenFacts.

Lemma sameTree_consistent d d' : sameTree d d' → consistent d → consistent d'.
Proof.
  destruct d, d'. unfold sameTree. simpl. intros [-> ->]. unfold consistent, children.
  simpl. done.
Qed.

Lemma sameTree_detach x d d' : sameTree d d' → sameTree (detach x d) (detach x d').
Proof.
  intros [Hp Hk]. unfold sameTree, detach, children. rewrite Hp, Hk.
  by destruct (parentOf d' !! x).
Qed.

Lemma insertBefore_throws x ref p d e d' :
  insertBefore x ref p d = (Throw e, d') → d' = d.
Proof.
  unfold insertBefore. destruct (inclusive_ancestor d x p); [congruence|].
  destruct (foreign_reference d ref p); congruence.
Qed.

Lemma insertBefore_attrs x ref p d : attrs (snd (insertBefore x ref p d)) = attrs d.
Proof.
  unfold insertBefore. destruct (inclusive_ancestor d x p); [done|].
  destruct (foreign_reference d ref p); [done|]. simpl.
  unfold detach. by destruct (parentOf d !! x).
Qed.

Section Host.
Context {selector : Type} (querySelector : selector → dom → option node).

(** X13.  A callback that completes, with a value or with an error, and
    leaves every parent and every list of children as it found them, gets
    the whole tree of before the call back, not only the place of the
    element; [renderOffscreen] completes as the callback did. *)
Theorem renderOffscreen_same_tree sel renderFunction d x p r d2 :
  querySelector sel d = Some x →
  consistent d →
  parentOf d !! x = Some p →
  ¬ ancestor d x p →
  renderFunction x (default (Rect 0 0) (rects d !! x))
    (rendered (Some p) x (nextSibling d x)) (atCallback x d) = (r, d2) →
  sameTree d2 (atCallback x d) →
  ∃ d3, renderOffscreen querySelector sel renderFunction d = (outcome r, d3)
        ∧ sameTree d3 d.
Proof.
  intros Hq Hc Hp Hanc Hrun [Hp2 Hk2].
  destruct (renderOffscreen_tree querySelector sel renderFunction d x p r d2)
    as (d3 & Hres & Hp3 & Hk3); try done.
  by exists d3.
Qed.

(** X14.  When the element cannot be inserted again after the callback,
    [renderOffscreen] throws the error of the host in place of what the
    callback completed with, and leaves the document as the callback left
    it: a [HierarchyRequestError] when the element has become its parent or
    an ancestor of it, else a [NotFoundError] when the recorded next sibling
    is no longer a child of the parent. *)
Theorem renderOffscreen_insertion_fails sel renderFunction d x p r d2 :
  querySelector sel d = Some x →
  parentOf d !! x = Some p →
  renderFunction x (default (Rect 0 0) (rects d !! x))
    (rendered (Some p) x (nextSibling d x)) (atCallback x d) = (r, d2) →
  (inclusive_ancestor d2 x p = true →
   renderOffscreen querySelector sel renderFunction d = (Throw HierarchyRequestError, d2))
  ∧ (inclusive_ancestor d2 x p = false →
     ∀ n, nextSibling d x = Some n → parentOf d2 !! n ≠ Some p →
     renderOffscreen querySelector sel renderFunction d = (Throw NotFoundError, d2)).
Proof.
  intros Hq Hp Hrun.
  rewrite (renderOffscreen_unfold querySelector sel _ d x p Hq Hp), Hrun.
  unfold insertBefore. split.
  - by intros ->.
  - intros -> n Hn Hforeign. rewrite Hn. simpl.
    by rewrite bool_decide_eq_true_2.
Qed.

(** X17.  When the callback is invoked, the [width] and [height]
    attributes of the element hold the geometry measured before the element
    was removed; and the insertion that ends the call writes no attribute:
    the attributes after the call are those the callback left. *)
Theorem renderOffscreen_attributes sel renderFunction d x p r d2 :
  querySelector sel d = Some x →
  parentOf d !! x = Some p →
  renderFunction x (default (Rect 0 0) (rects d !! x))
    (rendered (Some p) x (nextSibling d x)) (atCallback x d) = (r, d2) →
  attrs (atCallback x d) !! (x, "width"%string)
  = Some (width (default (Rect 0 0) (rects d !! x)))
  ∧ attrs (atCallback x d) !! (x, "height"%string)
    = Some (height (default (Rect 0 0) (rects d !! x)))
  ∧ attrs (snd (renderOffscreen querySelector sel renderFunction d)) = attrs d2.
Proof.
  intros Hq Hp Hrun.
  assert (Ha : attrs (atCallback x d) = attrs (stamped x d)).
  { unfold atCallback, detach. by destruct (parentOf (stamped x d) !! x). }
  rewrite Ha. unfold stamped. simpl. split; [|split].
  - rewrite lookup_insert_ne by (intros [= ]). by rewrite lookup_insert_eq.
  - by rewrite lookup_insert_eq.
  - rewrite (renderOffscreen_unfold querySelector sel _ d x p Hq Hp), Hrun.
    pose proof (insertBefore_attrs x (nextSibling d x) p d2) as Hattrs.
    by destruct (insertBefore x (nextSibling d x) p d2) as [[y|e] d3].
Qed.

(** X18.  Consistency of the tree is kept: the callback is invoked on a
    consistent tree, and when it leaves a consistent tree, so does
    [renderOffscreen], whether the final insertion succeeds or throws. *)
Theorem renderOffscreen_consistent sel renderFunction d x p r d2 :
  querySelector sel d = Some x →
  consistent d →
  parentOf d !! x = Some p →
  renderFunction x (default (Rect 0 0) (rects d !! x))
    (rendered (Some p) x (nextSibling d x)) (atCallback x d) = (r, d2) →
  consistent (atCallback x d)
  ∧ (consistent d2 →
     consistent (snd (renderOffscreen querySelector sel renderFunction d))).
Proof.
  intros Hq Hc Hp Hrun. split.
  - apply detach_consistent. by apply (sameTree_consistent d).
  - intros Hc2.
    rewrite (renderOffscreen_unfold querySelector sel _ d x p Hq Hp), Hrun.
    destruct (insertBefore x (nextSibling d x) p d2) as [[y|e] d3] eqn:Hins; simpl.
    + by eapply insertBefore_consistent.
    + by rewrite (insertBefore_throws _ _ _ _ _ _ Hins).
Qed.

End Host.


Lemma page_consistent : consistent Fixtures.page.
Proof. refine (bool_decide_unpack _ _). vm_compute. exact I. Qed.

Lemma page_root : ¬ ancestor Fixtures.page 1 0.
Proof. intros Ha. apply ancestor_root in Ha; [discriminate Ha|reflexivity]. Qed.

Lemma renderOffscreen_same_tree_witness :
  ∃ d3, renderOffscreen Fixtures.svg tt measuring Fixtures.page
        = (outcome (Normal (Number 42)), d3)
        ∧ sameTree d3 Fixtures.page.
Proof.
  apply (renderOffscreen_same_tree Fixtures.svg tt measuring Fixtures.page 1 0
           (Normal (Number 42)) (atCallback 1 Fixtures.page)).
  - reflexivity.
  - exact page_consistent.
  - reflexivity.
  - exact page_root.
  - vm_compute. reflexivity.
  - split; reflexivity.
Defined.

Lemma renderOffscreen_insertion_fails_witness :
  (inclusive_ancestor
     (snd (Fixtures.removing_sibling 1 (Rect 200 100)
             (rendered (Some 0) 1 (nextSibling Fixtures.page 1))
             (atCallback 1 Fixtures.page))) 1 0 = true →
   renderOffscreen Fixtures.svg tt Fixtures.removing_sibling Fixtures.page
   = (Throw HierarchyRequestError,
      snd (Fixtures.removing_sibling 1 (Rect 200 100)
             (rendered (Some 0) 1 (nextSibling Fixtures.page 1))
             (atCallback 1 Fixtures.page))))
  ∧ (inclusive_ancestor
       (snd (Fixtures.removing_sibling 1 (Rect 200 100)
               (rendered (Some 0) 1 (nextSibling Fixtures.page 1))
               (atCallback 1 Fixtures.page))) 1 0 = false →
     ∀ n, nextSibling Fixtures.page 1 = Some n →
          parentOf (snd (Fixtures.removing_sibling 1 (Rect 200 100)
                           (rendered (Some 0) 1 (nextSibling Fixtures.page 1))
                           (atCallback 1 Fixtures.page))) !! n ≠ Some 0 →
     renderOffscreen Fixtures.svg tt Fixtures.removing_sibling Fixtures.page
     = (Throw NotFoundError,
        snd (Fixtures.removing_sibling 1 (Rect 200 100)
               (rendered (Some 0) 1 (nextSibling Fixtures.page 1))
               (atCallback 1 Fixtures.page)))).
Proof.
  apply (renderOffscreen_insertion_fails Fixtures.svg tt Fixtures.removing_sibling
           Fixtures.page 1 0 (Normal Undefined)); reflexivity.
Defined.

Lemma renderOffscreen_attributes_witness :
  attrs (atCallback 1 Fixtures.page) !! (1, "width"%string)
  = Some (width (default (Rect 0 0) (rects Fixtures.page !! 1)))
  ∧ attrs (atCallback 1 Fixtures.page) !! (1, "height"%string)
    = Some (height (default (Rect 0 0) (rects Fixtures.page !! 1)))
  ∧ attrs (snd (renderOffscreen Fixtures.svg tt measuring Fixtures.page))
    = attrs (atCallback 1 Fixtures.page).
Proof.
  apply (renderOffscreen_attributes Fixtures.svg tt measuring Fixtures.page 1 0
           (Normal (Number 42)) (atCallback 1 Fixtures.page)).
  - reflexivity.
  - reflexivity.
  - vm_compute. reflexivity.
Defined.

Lemma renderOffscreen_consistent_witness :
  consistent (atCallback 1 Fixtures.page)
  ∧ (consistent (atCallback 1 Fixtures.page) →
     consistent (snd (renderOffscreen Fixtures.svg tt measuring Fixtures.page))).
Proof.
  apply (renderOffscreen_consistent Fixtures.svg tt measuring Fixtures.page 1 0
           (Normal (Number 42)) (atCallback 1 Fixtures.page)).
  - reflexivity.
  - exact page_consistent.
  - reflexivity.
  - vm_compute. reflexivity.
Defined.

(** X15.  A run-attached call whose task leaves the tree alone shows the
    task the whole tree of before [renderOffscreen], and gives back the tree
    it started from, the element removed: such calls can follow one another
    any number of times. *)
Theorem rendered_same_tree d0 x p task d r d2 :
  consistent d0 →
  parentOf d0 !! x = Some p →
  ¬ ancestor d0 x p →
  sameTree d (detach x d0) →
  task (snd (insertBefore x (nextSibling d0 x) p d)) = (r, d2) →
  sameTree d2 (snd (insertBefore x (nextSibling d0 x) p d)) →
  sameTree (snd (insertBefore x (nextSibling d0 x) p d)) d0
  ∧ ∃ d3, rendered (Some p) x (nextSibling d0 x) task d = (r, d3)
          ∧ sameTree d3 (detach x d0).
Proof.
  intros Hc Hp Hanc [Hpd Hkd] Hrun [Hp2 Hk2].
  destruct (detach_insertBefore d0 x p Hc Hp Hanc) as (d' & Hins & Hp' & Hk').
  destruct (insertBefore_tree (detach x d0) d x (nextSibling d0 x) p Hpd Hkd)
    as [Hfst Hsnd].
  rewrite Hins in Hfst, Hsnd. simpl in *. destruct (Hsnd x eq_refl) as [Hp1 Hk1].
  destruct (insertBefore x (nextSibling d0 x) p d) as [c d1] eqn:Hins1.
  simpl in *. subst c.
  assert (Htree1 : sameTree d1 d0) by (split; congruence).
  split; [done|].
  assert (Htree2 : sameTree d2 d0) by (split; congruence).
  exists (detach x d2). split; [|by apply sameTree_detach].
  rewrite (rendered_unfold p x _ task d d1 Hins1), Hrun.
  rewrite (removeChild_spec d2 x p); [done|]. destruct Htree2 as [-> _]. done.
Qed.

Lemma rendered_same_tree_witness :
  sameTree (snd (insertBefore 1 (nextSibling Fixtures.page 1) 0
                   (atCallback 1 Fixtures.page))) Fixtures.page
  ∧ ∃ d3, rendered (Some 0) 1 (nextSibling Fixtures.page 1) Fixtures.measuring_task
            (atCallback 1 Fixtures.page) = (Normal (Number 42), d3)
          ∧ sameTree d3 (detach 1 Fixtures.page).
Proof.
  apply (rendered_same_tree Fixtures.page 1 0 Fixtures.measuring_task
           (atCallback 1 Fixtures.page) (Normal (Number 42))
           (snd (insertBefore 1 (nextSibling Fixtures.page 1) 0
                   (atCallback 1 Fixtures.page)))).
  - exact page_consistent.
  - reflexivity.
  - exact page_root.
  - split; reflexivity.
  - reflexivity.
  - split; reflexivity.
Defined.

(** X16.  The two ways a run-attached call fails by itself.  When the
    insertion that opens it throws, the call throws that error, the task is
    not run and the document is as before.  When the task has completed,
    with a value or with an error, and the element is no longer a child of
    the recorded parent, the removal throws a [NotFoundError], which takes
    the place of what the task completed with; the document is as the task
    left it. *)
Theorem rendered_fails p x next task d :
  (∀ e d', insertBefore x next p d = (Throw e, d') →
     rendered (Some p) x next task d = (Throw e, d))
  ∧ (∀ d1 r d2, insertBefore x next p d = (Normal x, d1) →
       task d1 = (r, d2) →
       parentOf d2 !! x ≠ Some p →
       rendered (Some p) x next task d = (Throw NotFoundError, d2)).
Proof.
  split.
  - intros e d' Hins. rewrite (insertBefore_throws _ _ _ _ _ _ Hins) in Hins.
    unfold rendered, mbind, M_bind, on. by rewrite Hins.
  - intros d1 r d2 Hins Hrun Hx.
    rewrite (rendered_unfold p x next task d d1 Hins), Hrun.
    unfold removeChild. by rewrite decide_False.
Qed.

End OffscreenMore.
